(** * A shallow embedding of pyClarion's [numdicts/ops.py]

    A [NumDict] is a finite map from keys to floats together with an
    optional default.  Python floats are modelled as real numbers, so
    rounding is not modelled; the process-wide tape written by
    [record_call] is threaded explicitly through a state and error monad. *)

From Stdlib Require Import Reals Lra Classical_Prop.
From stdpp Require Import base gmap sets list strings fin_maps.

Local Open Scope R_scope.

#[global] Instance R_eq_dec : EqDecision R := Req_EM_T.

(** Exceptions raised by the modelled code. *)
Inductive error :=
  | ValueError
  | KeyError
  | TypeError.

(** The operations of ops.py that call [record_call]. *)
Inductive op :=
  | OpSetBy
  | OpThreshold
  | OpClip
  | OpReduceSum
  | OpReduceMax
  | OpReduceMin
  | OpMerge
  | OpBoltzmann
  | OpKeep
  | OpDrop
  | OpTransformKeys
  (* Modelled from the spec: NumDict arithmetic and [exp] (numdicts.py,
     not in the sources) are recorded primitives with their own backward
     rules (spec 2, 4.1 and 4.3). *)
  | OpNeg
  | OpAdd
  | OpSub
  | OpMul
  | OpDiv
  | OpExp.

#[global] Instance op_eq_dec : EqDecision op.
Proof. solve_decision. Defined.

Section NumDicts.

Context {K : Type} `{Countable K}.

(** [NumDict(mapping, default)]: the explicit mapping and the default
    ([None] is Python's [None]). *)
Record NumDict := mkND {
  nd_map : gmap K R;
  nd_default : option R
}.

(** Python's [NumDict(mapping)], whose default is omitted. *)
Definition ND (m : gmap K R) : NumDict := mkND m None.

(** [d.values()] and [len(d)]. *)
Definition values (d : NumDict) : list R := (map_to_list (nd_map d)).*2.

Definition nd_len (d : NumDict) : nat := size (nd_map d).

(** [d[k]]: the explicit value, else the default, else [KeyError]. *)
Definition nd_get (d : NumDict) (k : K) : option R :=
  match nd_map d !! k with
  | Some v => Some v
  | None => nd_default d
  end.

(** An element of the [inputs] tuple of a record: a NumDict, or a tuple
    of NumDicts (merge records [(ds,)]). *)
Inductive pyarg :=
  | PND (d : NumDict)
  | PTuple (ds : list NumDict).

Coercion PND : NumDict >-> pyarg.

(** A tape record [(op, output, inputs)]; the keyword arguments are only
    read by the backward rules and are not kept. *)
Record record := mkRec {
  rec_op : op;
  rec_out : NumDict;
  rec_inputs : list pyarg
}.

Definition tape := list record.

(** Computations that append to the tape and may raise. *)
Definition M (A : Type) : Type := tape -> error + (A * tape).

Definition ret {A} (x : A) : M A := fun T => inr (x, T).

Definition raise {A} (e : error) : M A := fun _ => inl e.

Definition bind {A B} (c : M A) (f : A -> M B) : M B :=
  fun T => match c T with
           | inl e => inl e
           | inr (x, T') => f x T'
           end.

Notation "'let*' x ':=' c 'in' k" := (bind c (fun x => k))
  (at level 200, x binder, c at level 100, k at level 200).

(** [record_call(op, output, inputs, kwargs)] appends a record. *)
Definition record_call (o : op) (out : NumDict) (ins : list pyarg) : M unit :=
  fun T => inr (tt, T ++ [mkRec o out ins]).

(** Running a computation: its value (or error) and the records it
    appended, from a given tape. *)
Definition value_of {A} (c : M A) (T : tape) : error + A :=
  match c T with
  | inl e => inl e
  | inr (x, _) => inr x
  end.

(** Python comparisons on floats as booleans. *)
Definition Rltb (x y : R) : bool := if Rlt_dec x y then true else false.

Definition Rleb (x y : R) : bool := if Rle_dec x y then true else false.

(** Python's [max(a, b)] and [min(a, b)] keep the first argument unless
    the second is strictly larger (smaller). *)
Definition py_max2 (a b : R) : R := if Rltb a b then b else a.

Definition py_min2 (a b : R) : R := if Rltb b a then b else a.

(** Python's [max(xs)] and [min(xs)] over a list; empty lists raise. *)
Definition py_max (xs : list R) : option R :=
  match xs with
  | [] => None
  | x :: rest => Some (fold_left py_max2 rest x)
  end.

Definition py_min (xs : list R) : option R :=
  match xs with
  | [] => None
  | x :: rest => Some (fold_left py_min2 rest x)
  end.

(** Python's [sum(xs, 0)]. *)
Definition py_sum (xs : list R) : R := fold_left Rplus xs 0.

(** ** threshold *)
Definition threshold (d : NumDict) (th : R) (keep_default : bool) : M NumDict :=
  let mapping := filter (fun kv : K * R => Rltb th kv.2 = true) (nd_map d) in
  let default :=
    match nd_default d with
    | Some dd => if keep_default || Rltb th dd then Some dd else None
    | None => None
    end in
  let value := mkND mapping default in
  let* _ := record_call OpThreshold value [PND d] in
  ret value.

(** ** clip

    [low = low or float("-inf")]: a falsy [low] ([None] or [0.0]) becomes
    minus infinity, represented by [None] in the result; likewise [high]
    and plus infinity. *)
Definition py_or_inf (b : option R) : option R :=
  match b with
  | Some r => if Req_EM_T r 0 then None else Some r
  | None => None
  end.

(** [max(low, x)] with [low] possibly [-inf] ([None]). *)
Definition max_low (low : option R) (x : R) : R :=
  match low with
  | Some l => py_max2 l x
  | None => x
  end.

(** [min(high, x)] with [high] possibly [+inf] ([None]). *)
Definition min_high (high : option R) (x : R) : R :=
  match high with
  | Some h => py_min2 h x
  | None => x
  end.

Definition clip (d : NumDict) (low high : option R) : M NumDict :=
  let low := py_or_inf low in
  let high := py_or_inf high in
  let mapping := (fun v => max_low low (min_high high v)) <$> nd_map d in
  let value := mkND mapping (nd_default d) in
  let* _ := record_call OpClip value [PND d] in
  ret value.

(** ** reduce_sum, reduce_max, reduce_min ([key] is [None] or a key) *)
Definition reduce_sum (d : NumDict) (key : option K) : M NumDict :=
  let result := py_sum (values d) in
  let value :=
    match key with
    | None => mkND ∅ (Some result)
    | Some k => ND {[k := result]}
    end in
  let* _ := record_call OpReduceSum value [PND d] in
  ret value.

Definition reduce_max (d : NumDict) (key : option K) : M NumDict :=
  match py_max (values d) with
  | None => raise ValueError
  | Some result =>
      let value :=
        match key with
        | None => mkND ∅ (Some result)
        | Some k => ND {[k := result]}
        end in
      let* _ := record_call OpReduceMax value [PND d] in
      ret value
  end.

Definition reduce_min (d : NumDict) (key : option K) : M NumDict :=
  match py_min (values d) with
  | None => raise ValueError
  | Some result =>
      let value :=
        match key with
        | None => mkND ∅ (Some result)
        | Some k => ND {[k := result]}
        end in
      let* _ := record_call OpReduceMin value [PND d] in
      ret value
  end.

(** ** merge *)
Definition merge (ds : list NumDict) : M NumDict :=
  match ds with
  | [] => raise ValueError
  | d0 :: _ =>
      (* len(set.union( *map(set, ds))) < sum(map(len, ds)) *)
      if decide (size (⋃ ((fun d => dom (nd_map d)) <$> ds))
                 < sum_list (nd_len <$> ds))%nat
      then raise ValueError
      else
        (* data = {}; for d in ds: data.update(d) *)
        let data := foldl (fun acc d => nd_map d ∪ acc) ∅ ds in
        (* len(set(d.default for d in ds)) == 1 *)
        let default :=
          if decide (length (remove_dups (nd_default <$> ds)) = 1%nat)
          then nd_default d0 else None in
        let value := mkND data default in
        let* _ := record_call OpMerge value [PTuple ds] in
        ret value
  end.

(** ** keep and drop

    [func] is the optional predicate (its keyword arguments folded in) and
    [keys] the optional container, given by its membership test. *)
Definition keep_sel (func keys : option (K -> bool)) (k : K) : bool :=
  (match func with Some f => f k | None => false end) ||
  (match keys with Some ks => ks k | None => false end).

Definition keep (d : NumDict) (func keys : option (K -> bool)) : M NumDict :=
  match func, keys with
  | None, None => raise ValueError
  | _, _ =>
      let mapping := filter (fun kv : K * R => keep_sel func keys kv.1 = true)
                       (nd_map d) in
      let value := mkND mapping (nd_default d) in
      let* _ := record_call OpKeep value [PND d] in
      ret value
  end.

Definition drop_sel (func keys : option (K -> bool)) (k : K) : bool :=
  (match func with Some f => negb (f k) | None => false end) &&
  (match keys with Some ks => negb (ks k) | None => false end).

Definition drop (d : NumDict) (func keys : option (K -> bool)) : M NumDict :=
  match func, keys with
  | None, None => raise ValueError
  | _, _ =>
      let mapping := filter (fun kv : K * R => drop_sel func keys kv.1 = true)
                       (nd_map d) in
      let value := mkND mapping (nd_default d) in
      let* _ := record_call OpDrop value [PND d] in
      ret value
  end.

(** ** transform_keys

    [{func(k): d[k] for k in d}]; when [func] collides on two keys the
    value kept depends on the iteration order, and the length check that
    follows raises in that case anyway. *)
Definition transform_keys (d : NumDict) (func : K -> K) : M NumDict :=
  let mapping : gmap K R :=
    list_to_map ((fun kv : K * R => (func kv.1, kv.2)) <$> map_to_list (nd_map d)) in
  if decide (nd_len d <> size mapping) then raise ValueError
  else
    let value := mkND mapping (nd_default d) in
    let* _ := record_call OpTransformKeys value [PND d] in
    ret value.

(** ** NumDict arithmetic *)

(** Modelled from the spec: the NumDict class (numdicts.py) is not in the
    sources.  A NumDict combined with a scalar ([d / t], [x - c],
    [g * d], [1 + d]), negation and the method [exp] act pointwise on the
    explicit values and on the default when it is defined (spec 4.1). *)
Definition nd_pointwise (f : R -> R) (d : NumDict) : NumDict :=
  mkND (f <$> nd_map d) (f <$> nd_default d).

(** Modelled from the spec: such an operation is a recorded primitive
    (spec 2 and 4.3: [exp] has its own backward rule, and [sigmoid] and
    [tanh] are differentiable by composing it with the arithmetic); it
    records its NumDict operand. *)
Definition nd_unop (o : op) (f : R -> R) (d : NumDict) : M NumDict :=
  let value := nd_pointwise f d in
  let* _ := record_call o value [PND d] in
  ret value.

(** Modelled from the spec: a NumDict combined with a Python value read
    from [.default]; a [None] operand raises [TypeError]. *)
Definition nd_scalar (o : op) (f : R -> R -> R) (d : NumDict) (c : option R)
    : M NumDict :=
  match c with
  | Some c => nd_unop o (fun v => f v c) d
  | None => raise TypeError
  end.

(** Modelled from the spec: [funcs.with_default(d, default=v)] (funcs.py
    is not in the sources) returns [d] with its default replaced. *)
Definition with_default (d : NumDict) (dflt : option R) : NumDict :=
  mkND (nd_map d) dflt.

(** ** sigmoid and tanh, composed of NumDict arithmetic *)



(** ** boltzmann *)
Definition boltzmann (d : NumDict) (t : R) : M NumDict :=
  let default := match nd_default d with Some _ => Some 0 | None => None end in
  if decide (0 < nd_len d)%nat then
    let* x := nd_unop OpDiv (fun v => v / t) d in
    let* mx := reduce_max x None in
    let* x := nd_scalar OpSub Rminus x (nd_default mx) in
    let* numerators := nd_unop OpExp exp x in
    let* s := reduce_sum numerators None in
    let* q := nd_scalar OpDiv Rdiv numerators (nd_default s) in
    let value := with_default q default in
    let* _ := record_call OpBoltzmann value [PND d] in
    ret value
  else
    let value := mkND ∅ default in
    let* _ := record_call OpBoltzmann value [PND d] in
    ret (mkND ∅ default).

(** ** isclose and the backward rule of reduce_max *)

(** [math.isclose(a, b)] with its default tolerances. *)
Definition py_isclose (a b : R) : bool :=
  Rleb (Rabs (a - b)) (Rmax (/ 1000000000 * Rmax (Rabs a) (Rabs b)) 0).

Definition b2R (b : bool) : R := if b then 1 else 0.

(** Modelled from the spec: [funcs.isclose(a, b)] (funcs.py is not in the
    sources) is the pointwise [isclose] over the union of the explicit
    keys, reading missing keys from the defaults ([KeyError] when there is
    none); its default is [isclose] of the two defaults when both are
    defined, else [None].  Booleans are stored as [1.0] and [0.0]. *)
Definition isclose (a b : NumDict) : M NumDict :=
  match mapM (fun k => x ← nd_get a k; y ← nd_get b k;
                       Some (k, b2R (py_isclose x y)))
             (elements (dom (nd_map a) ∪ dom (nd_map b))) with
  | None => raise KeyError
  | Some kvs =>
      let default :=
        match nd_default a, nd_default b with
        | Some x, Some y => Some (b2R (py_isclose x y))
        | _, _ => None
        end in
      ret (mkND (list_to_map kvs) default)
  end.

(** [_grad_reduce_max(grads, d, key=key)], registered for reduce_max. *)
Definition _grad_reduce_max (grads d : NumDict) (key : option K) : M (list NumDict) :=
  let* g := match key with
            | None => ret (nd_default grads)
            | Some k => match nd_get grads k with
                        | Some x => ret (Some x)
                        | None => raise KeyError
                        end
            end in
  let* m := reduce_max d None in
  let* c := isclose d m in
  let* r := nd_scalar OpMul (fun v g => g * v) c g in
  ret [r].

(** Two distinct operands of a list of NumDicts have a common explicit
    key. *)
Definition share_key (ds : list NumDict) : Prop :=
  exists i j di dj k, i <> j /\ ds !! i = Some di /\ ds !! j = Some dj /\
    k ∈ dom (nd_map di) /\ k ∈ dom (nd_map dj).

(** ** Dict comprehensions

    [{k: e(k, d[k]) for k in d}]: iterating a NumDict visits its explicit
    keys (in the order of its mapping); evaluating [e] may raise
    [KeyError], written [None]. *)
Definition dict_comp (d : NumDict) (e : K -> R -> option R) : option (gmap K R) :=
  kvs ← mapM (fun kv : K * R => y ← e kv.1 kv.2; Some (kv.1, y))
              (map_to_list (nd_map d));
  Some (list_to_map kvs).

(** ** set_by

    [NumDict({k: source[keyfunc(k)] for k in target}, None)]. *)
Definition set_by (target source : NumDict) (keyfunc : K -> K) : M NumDict :=
  match dict_comp target (fun k _ => nd_get source (keyfunc k)) with
  | None => raise KeyError
  | Some mapping =>
      let value := mkND mapping None in
      let* _ := record_call OpSetBy value [PND target; PND source] in
      ret value
  end.

(** ** Backward rules

    A Python [bool] times a float ([(th < d[k]) * grads[k]]) is the float
    or zero, that is [b2R b * g]; both factors are evaluated, so a missing
    [grads[k]] raises whatever the test gives. *)

(** [_grad_threshold(grads, d, th=th)]: the default is [grads.default],
    or [None] when [d.default] is [None]. *)
Definition _grad_threshold (grads d : NumDict) (th : R) : M (list NumDict) :=
  match dict_comp d (fun k x => g ← nd_get grads k; Some (b2R (Rltb th x) * g)) with
  | None => raise KeyError
  | Some mapping =>
      let default :=
        match nd_default d with
        | None => None
        | Some _ => nd_default grads
        end in
      ret [mkND mapping default]
  end.

(** [low < x < high], where [low] is possibly [-inf] and [high] possibly
    [+inf] ([None]), as [clip] records them. *)
Definition in_open (low high : option R) (x : R) : bool :=
  (match low with Some l => Rltb l x | None => true end) &&
  (match high with Some h => Rltb x h | None => true end).

(** [_grad_clip(grads, d, low=low, high=high)], called with the bounds
    recorded by [clip], i.e. after [low or float("-inf")]. *)
Definition _grad_clip (grads d : NumDict) (low high : option R) : M (list NumDict) :=
  match dict_comp d (fun k x => g ← nd_get grads k;
                                Some (b2R (in_open low high x) * g)) with
  | None => raise KeyError
  | Some mapping => ret [mkND mapping (nd_default grads)]
  end.

(** The backward rule registered for [reduce_min]; the source names it
    [_grad_reduce_max] too, rebinding that module-level name after the
    first one has been registered for [reduce_max]. *)
Definition _grad_reduce_min (grads d : NumDict) (key : option K) : M (list NumDict) :=
  let* g := match key with
            | None => ret (nd_default grads)
            | Some k => match nd_get grads k with
                        | Some x => ret (Some x)
                        | None => raise KeyError
                        end
            end in
  let* m := reduce_min d None in
  let* c := isclose d m in
  let* r := nd_scalar OpMul (fun v g => g * v) c g in
  ret [r].

(** [_grad_merge(grads, *ds)]: one NumDict per operand,
    [NumDict({k: grads[k] for k in d}, grads.default)]. *)
Definition _grad_merge (grads : NumDict) (ds : list NumDict) : M (list NumDict) :=
  match mapM (fun d => mapping ← dict_comp d (fun k _ => nd_get grads k);
                       Some (mkND mapping (nd_default grads))) ds with
  | None => raise KeyError
  | Some gs => ret gs
  end.

(** [_grad_keep(grads, d, func=func, keys=keys)]. *)
Definition _grad_keep (grads d : NumDict) (func keys : option (K -> bool))
    : M (list NumDict) :=
  match dict_comp d (fun k _ => g ← nd_get grads k;
                                Some (b2R (keep_sel func keys k) * g)) with
  | None => raise KeyError
  | Some mapping => ret [mkND mapping (nd_default grads)]
  end.

(** [_grad_drop(grads, d, func=func, keys=keys)]. *)
Definition _grad_drop (grads d : NumDict) (func keys : option (K -> bool))
    : M (list NumDict) :=
  match dict_comp d (fun k _ => g ← nd_get grads k;
                                Some (b2R (drop_sel func keys k) * g)) with
  | None => raise KeyError
  | Some mapping => ret [mkND mapping (nd_default grads)]
  end.

(** [_grad_transform_keys(grads, d, func=func)]:
    [{func(k): grads[func(k)] for k in d}].  Two keys with the same image
    give the same entry, so which one the comprehension keeps does not
    matter. *)
Definition _grad_transform_keys (grads d : NumDict) (func : K -> K)
    : M (list NumDict) :=
  match mapM (fun kv : K * R => g ← nd_get grads (func kv.1); Some (func kv.1, g))
             (map_to_list (nd_map d)) with
  | None => raise KeyError
  | Some kvs => ret [mkND (list_to_map kvs) (nd_default grads)]
  end.

(** ** by, sum_by, max_by, min_by *)

(** [[f(x) for x in xs]] in the tape monad, left to right. *)
Fixpoint mapM_M {A B} (f : A -> M B) (xs : list A) : M (list B) :=
  match xs with
  | [] => ret []
  | x :: rest =>
      let* y := f x in
      let* ys := mapM_M f rest in
      ret (y :: ys)
  end.

(** [by(d, reducer=reducer, keyfunc=keyfunc)] ([by] is a Rocq keyword).
    [keys = tuple(set(keyfunc(k) for k in d))]: a Python set is iterated
    in an unspecified order, for which the order of [elements] stands.
    For each [k] of [keys] (zipped with the lazily built groups), the
    selector [[x for x in d if keyfunc(x) == k]] is built, then
    [keep(d, keys=selector)] and [reducer(group, key=k)] run; the outputs
    are merged. *)
Definition by_ (d : NumDict) (reducer : NumDict -> option K -> M NumDict)
    (keyfunc : K -> K) : M NumDict :=
  let keys := elements (set_map keyfunc (dom (nd_map d)) : gset K) in
  let* outs :=
    mapM_M (fun k =>
              let s := filter (fun x => keyfunc x = k) (map_to_list (nd_map d)).*1 in
              let* g := keep d None (Some (fun x => bool_decide (x ∈ s))) in
              reducer g (Some k)) keys in
  merge outs.

Definition sum_by (d : NumDict) (keyfunc : K -> K) : M NumDict :=
  by_ d reduce_sum keyfunc.

Definition max_by (d : NumDict) (keyfunc : K -> K) : M NumDict :=
  by_ d reduce_max keyfunc.

Definition min_by (d : NumDict) (keyfunc : K -> K) : M NumDict :=
  by_ d reduce_min keyfunc.

(** Modelled from the spec: a NumDict combined with a NumDict ([a * b])
    is computed over the union of their explicit keys, reading a missing
    key from the operand's default ([KeyError] when there is none); the
    result's default combines the two defaults when both are defined,
    else [None] (spec 4.1).  It is a recorded primitive, recording its
    two operands. *)
Definition nd_binop (o : op) (f : R -> R -> R) (a b : NumDict) : M NumDict :=
  match mapM (fun k => x ← nd_get a k; y ← nd_get b k; Some (k, f x y))
             (elements (dom (nd_map a) ∪ dom (nd_map b))) with
  | None => raise KeyError
  | Some kvs =>
      let default :=
        match nd_default a, nd_default b with
        | Some x, Some y => Some (f x y)
        | _, _ => None
        end in
      let value := mkND (list_to_map kvs) default in
      let* _ := record_call o value [PND a; PND b] in
      ret value
  end.

(** [_grad_set_by(grads, target, source, keyfunc=keyfunc)]:
    [(grads * NumDict(default=0), sum_by(grads, keyfunc=keyfunc))]. *)
Definition _grad_set_by (grads target source : NumDict) (keyfunc : K -> K)
    : M (list NumDict) :=
  let* g1 := nd_binop OpMul Rmult grads (mkND ∅ (Some 0)) in
  let* g2 := sum_by grads keyfunc in
  ret [g1; g2].

End NumDicts.

(** The section's notation for [bind], for the statements below. *)
Notation "'let*' x ':=' c 'in' k" := (bind c (fun x => k))
  (at level 200, x binder, c at level 100, k at level 200).

(** * Concrete inputs *)

Definition d_neg : @NumDict string _ _ := ND {["a"%string := -1]}.

Definition d_one : @NumDict string _ _ := ND {["a"%string := 1]}.

Definition d_abc : @NumDict string _ _ :=
  ND (<["a"%string := 1]> (<["b"%string := 2]> {["c"%string := 3]})).

Definition grad_abc : @NumDict string _ _ :=
  ND (<["a"%string := 0]> (<["b"%string := 0]> {["c"%string := 1]})).

Definition d_two : @NumDict string _ _ := ND {["b"%string := 2]}.

Definition d_empty : @NumDict string _ _ := ND ∅.

Definition never : string -> bool := fun _ => false.

(** A key renaming and its inverse on the renamed keys. *)
Definition prefix_k (k : string) : string := ("k" ++ k)%string.

Definition strip_first (k : string) : string :=
  match k with
  | String _ rest => rest
  | EmptyString => EmptyString
  end.

(** * Properties *)

Section Proofs.

Context {K : Type} `{Countable K}.

Local Abbreviation NumDictK := (@NumDict K _ _).

Lemma values_empty (d : NumDictK) : nd_map d = ∅ -> values d = [].
Proof. intros Hd. unfold values. rewrite Hd, map_to_list_empty. reflexivity. Qed.

Lemma values_pointwise (f : R -> R) (d : NumDictK) :
  values (nd_pointwise f d) = f <$> values d.
Proof.
  unfold values, nd_pointwise; simpl. rewrite map_to_list_fmap.
  rewrite <- !list_fmap_compose. apply list_fmap_ext. by intros i [k v].
Qed.

Lemma elem_of_values (d : NumDictK) (x : R) :
  x ∈ values d <-> exists k, nd_map d !! k = Some x.
Proof.
  unfold values. rewrite list_elem_of_fmap. split.
  - intros [[k v] [-> Hin]]. exists k. by apply elem_of_map_to_list.
  - intros [k Hk]. exists (k, x). split; [done|]. by apply elem_of_map_to_list.
Qed.

(** Python's [max] returns a largest element of a non-empty list. *)
Lemma fold_py_max2_spec (l : list R) (a : R) :
  (fold_left py_max2 l a = a \/ fold_left py_max2 l a ∈ l) /\
  a <= fold_left py_max2 l a /\
  (forall y, y ∈ l -> y <= fold_left py_max2 l a).
Proof.
  revert a. induction l as [|x l IH]; intros a; simpl.
  - split; [by left|]. split; [lra|]. intros y Hy. by apply elem_of_nil in Hy.
  - destruct (IH (py_max2 a x)) as [Hin [Hge Hub]].
    assert (Ha : a <= py_max2 a x /\ x <= py_max2 a x /\
                 (py_max2 a x = a \/ py_max2 a x = x)).
    { unfold py_max2, Rltb. destruct (Rlt_dec a x); lra. }
    split; [|split].
    + destruct Hin as [Heq|Hin]; [|right; by right].
      rewrite Heq. destruct Ha as [_ [_ [->| ->]]]; [by left|right; by left].
    + lra.
    + intros y Hy. apply elem_of_cons in Hy as [->|Hy]; [lra|by apply Hub].
Qed.

Lemma py_max_spec (l : list R) (m : R) :
  py_max l = Some m -> m ∈ l /\ forall y, y ∈ l -> y <= m.
Proof.
  destruct l as [|x l]; simpl; [discriminate|]. intros [= <-].
  destruct (fold_py_max2_spec l x) as [Hin [Hge Hub]]. split.
  - destruct Hin as [->|Hin]; [by left|by right].
  - intros y Hy. apply elem_of_cons in Hy as [->|Hy]; [done|by apply Hub].
Qed.

Lemma py_max_unique (l : list R) (m m' : R) :
  py_max l = Some m -> m' ∈ l -> (forall y, y ∈ l -> y <= m') -> m = m'.
Proof.
  intros Hm Hin' Hub'. apply py_max_spec in Hm as [Hin Hub].
  apply Hub in Hin'. apply Hub' in Hin. lra.
Qed.

(** ** C6: threshold *)

(** C6: [threshold(d, th=th)] retains exactly the explicit entries whose
    value is strictly above [th] (so every dropped entry is at most [th]);
    the default is kept when [keep_default] is set or it exceeds [th], and
    is [None] otherwise. *)
Theorem threshold_keeps_above (d : NumDictK) (th : R) (keep_default : bool)
    (T : tape) :
  exists v, value_of (threshold d th keep_default) T = inr v /\
    (forall k x, nd_map v !! k = Some x <-> nd_map d !! k = Some x /\ th < x) /\
    (forall k x, nd_map d !! k = Some x -> nd_map v !! k = None -> x <= th) /\
    ((nd_default v = nd_default d /\
      (keep_default = true \/ exists dd, nd_default d = Some dd /\ th < dd)) \/
     (nd_default v = None /\ keep_default = false /\
      forall dd, nd_default d = Some dd -> dd <= th)).
Proof.
  eexists. split; [reflexivity|]. simpl. split; [|split].
  - intros k x. rewrite map_lookup_filter_Some. simpl. unfold Rltb.
    destruct (Rlt_dec th x); naive_solver.
  - intros k x Hk Hv. apply map_lookup_filter_None in Hv as [Hn|Hn];
      [congruence|]. specialize (Hn x Hk). simpl in Hn. unfold Rltb in Hn.
    destruct (Rlt_dec th x); [done|lra].
  - destruct (nd_default d) as [dd|]; simpl.
    + destruct keep_default; simpl; [left; split; [done|by left]|].
      unfold Rltb. destruct (Rlt_dec th dd).
      * left. split; [done|right; eauto].
      * right. split; [done|split; [done|]]. intros ? [= <-]. lra.
    + destruct keep_default; [left; split; [done|by left]|].
      right. split; [done|split; [done|]]. discriminate.
Qed.

(** ** C10: reduce_sum on an empty NumDict *)

(** C10: on a NumDict with no explicit entries [reduce_sum] succeeds, giving
    the default-only NumDict [0] without a key and [{key: 0}] with one,
    whereas [reduce_max] and [reduce_min] raise [ValueError]. *)
Theorem reduce_sum_empty_ok (d : NumDictK) (T : tape) :
  nd_map d = ∅ ->
  value_of (reduce_sum d None) T = inr (mkND ∅ (Some 0)) /\
  (forall k, exists v, value_of (reduce_sum d (Some k)) T = inr v /\
                       nd_map v = {[k := 0]}) /\
  (forall key, value_of (reduce_max d key) T = inl ValueError) /\
  (forall key, value_of (reduce_min d key) T = inl ValueError).
Proof.
  intros Hd. unfold value_of, reduce_sum, reduce_max, reduce_min.
  rewrite (values_empty d Hd). split; [reflexivity|]. split.
  - intros k. eexists. split; reflexivity.
  - split; intros key; reflexivity.
Qed.

(** ** C4: boltzmann *)

Lemma fold_Rplus_acc (l : list R) (a : R) :
  fold_left Rplus l a = a + fold_left Rplus l 0.
Proof.
  revert a. induction l as [|x l IH]; intros a; simpl; [lra|].
  rewrite (IH (a + x)), (IH (0 + x)). lra.
Qed.

Lemma py_sum_cons (x : R) (l : list R) : py_sum (x :: l) = x + py_sum l.
Proof. unfold py_sum. simpl. rewrite fold_Rplus_acc. lra. Qed.

Lemma py_sum_div (l : list R) (s : R) :
  py_sum ((fun v => v / s) <$> l) = py_sum l / s.
Proof.
  induction l as [|x l IH]; csimpl.
  - unfold py_sum; simpl. unfold Rdiv. ring.
  - rewrite !py_sum_cons, IH. unfold Rdiv. ring.
Qed.

Lemma py_sum_pos (l : list R) :
  l <> [] -> (forall y, y ∈ l -> 0 < y) -> 0 < py_sum l.
Proof.
  induction l as [|x l IH]; intros Hne Hpos; [done|].
  rewrite py_sum_cons.
  assert (0 < x) by (apply Hpos; by left).
  destruct l as [|y l'].
  - unfold py_sum; simpl. lra.
  - assert (0 < py_sum (y :: l')).
    { apply IH; [done|]. intros z Hz. apply Hpos. by right. }
    lra.
Qed.

Lemma values_nonempty (d : NumDictK) : (0 < nd_len d)%nat -> values d <> [].
Proof.
  unfold nd_len, values. intros Hlen Hnil.
  apply (f_equal length) in Hnil. rewrite length_fmap, length_map_to_list in Hnil.
  simpl in Hnil. lia.
Qed.

(** A forward evaluation of [boltzmann] on a non-empty NumDict: its value
    and the records it appends. *)
Lemma boltzmann_run (d : NumDictK) (t mx : R) (T : tape) :
  (0 < nd_len d)%nat ->
  py_max (values (nd_pointwise (fun v => v / t) d)) = Some mx ->
  exists T',
    boltzmann d t T =
      inr (with_default
             (nd_pointwise
                (fun v => v / py_sum (values (nd_pointwise exp
                   (nd_pointwise (fun v => v - mx) (nd_pointwise (fun v => v / t) d)))))
                (nd_pointwise exp
                   (nd_pointwise (fun v => v - mx) (nd_pointwise (fun v => v / t) d))))
             (match nd_default d with Some _ => Some 0 | None => None end),
           T ++ T') /\
    rec_op <$> T' = [OpDiv; OpReduceMax; OpSub; OpExp; OpReduceSum; OpDiv; OpBoltzmann].
Proof.
  intros Hlen Hmx. unfold boltzmann. rewrite decide_True by done.
  cbv beta iota zeta delta [bind nd_unop nd_scalar record_call ret].
  unfold reduce_max at 1. rewrite Hmx.
  cbv beta iota zeta delta [bind nd_unop nd_scalar record_call ret reduce_sum nd_default].
  eexists. split.
  - rewrite <- !app_assoc. reflexivity.
  - reflexivity.
Qed.

(** C4: for a non-empty NumDict and a temperature [t > 0], [boltzmann(d, t)]
    has the keys of [d], maps each [k] to [exp(d[k]/t - m) / sum_j
    exp(d[j]/t - m)] where [m] is the maximum of [d]'s values divided by
    [t], and its explicit values sum to [1] (exactly, over the reals). *)
Theorem boltzmann_softmax (d : NumDictK) (t : R) (T : tape) :
  (0 < nd_len d)%nat -> 0 < t ->
  exists v M0,
    value_of (boltzmann d t) T = inr v /\
    M0 ∈ values d /\ (forall y, y ∈ values d -> y <= M0) /\
    dom (nd_map v) = dom (nd_map d) /\
    (forall k x, nd_map d !! k = Some x ->
       nd_map v !! k =
         Some (exp (x / t - M0 / t) /
               py_sum ((fun y => exp (y / t - M0 / t)) <$> values d))) /\
    py_sum (values v) = 1.
Proof.
  intros Hlen Ht.
  pose proof (values_nonempty d Hlen) as Hne.
  destruct (py_max (values d)) as [M0|] eqn:HM0;
    [|by destruct (values d)].
  apply py_max_spec in HM0 as [HM0in HM0ub].
  set (x := nd_pointwise (fun v => v / t) d).
  assert (Hvx : values x = (fun v => v / t) <$> values d)
    by apply values_pointwise.
  destruct (py_max (values x)) as [mx|] eqn:Hmx;
    [|rewrite Hvx in Hmx; by destruct (values d)].
  assert (Hmx' : mx = M0 / t).
  { apply (py_max_unique (values x)); [done| |].
    - rewrite Hvx. by apply (list_elem_of_fmap_2 (fun v => v / t)).
    - intros y Hy. rewrite Hvx in Hy.
      apply list_elem_of_fmap_1 in Hy as [v [-> Hv]]. apply HM0ub in Hv.
      unfold Rdiv. apply Rmult_le_compat_r; [|done].
      left. by apply Rinv_0_lt_compat. }
  subst mx.
  set (S := py_sum ((fun y => exp (y / t - M0 / t)) <$> values d)).
  assert (HS : 0 < S).
  { apply py_sum_pos.
    - intros Hnil. apply (f_equal length) in Hnil. rewrite length_fmap in Hnil.
      destruct (values d); simpl in Hnil; [done|lia].
    - intros y Hy. apply list_elem_of_fmap_1 in Hy as [v [-> _]].
      apply exp_pos. }
  set (default := match nd_default d with Some _ => Some 0 | None => None end).
  set (numer := nd_pointwise exp (nd_pointwise (fun v => v - M0 / t) x)).
  assert (Hnum : py_sum (values numer) = S).
  { unfold numer, S. rewrite !values_pointwise, Hvx.
    rewrite <- !list_fmap_compose. reflexivity. }
  exists (with_default (nd_pointwise (fun v => v / S) numer) default), M0.
  split; [|split; [done|split; [done|split; [|split]]]].
  - destruct (boltzmann_run d t (M0 / t) T Hlen Hmx) as (T' & Hrun & _).
    unfold value_of. rewrite Hrun. fold x numer. rewrite Hnum. reflexivity.
  - simpl. unfold numer, x. simpl. rewrite !dom_fmap_L. reflexivity.
  - intros k v Hk. simpl. unfold numer, x. simpl.
    rewrite !lookup_fmap, Hk. reflexivity.
  - change (values (with_default (nd_pointwise (fun v => v / S) numer) default))
      with (values (nd_pointwise (fun v => v / S) numer)).
    rewrite values_pointwise, py_sum_div, Hnum. field. lra.
Qed.

(** ** C7: merge *)

Lemma dom_union_list_cons (d : NumDictK) (ds : list NumDictK) :
  ⋃ ((fun d => dom (nd_map d)) <$> d :: ds) =
  dom (nd_map d) ∪ ⋃ ((fun d => dom (nd_map d)) <$> ds).
Proof. reflexivity. Qed.

Lemma elem_of_dom_union_list (ds : list NumDictK) (k : K) :
  k ∈ ⋃ ((fun d => dom (nd_map d)) <$> ds) <->
  exists j dj, ds !! j = Some dj /\ k ∈ dom (nd_map dj).
Proof.
  rewrite elem_of_union_list. split.
  - intros [X [HX Hk]]. apply list_elem_of_fmap_1 in HX as [dj [-> Hdj]].
    apply list_elem_of_lookup in Hdj as [j Hj]. eauto.
  - intros [j [dj [Hj Hk]]]. exists (dom (nd_map dj)). split; [|done].
    apply (list_elem_of_fmap_2 (fun d => dom (nd_map d))).
    by eapply list_elem_of_lookup_2.
Qed.

Lemma share_key_cons (d : NumDictK) (ds : list NumDictK) :
  share_key (d :: ds) <->
  (exists k, k ∈ dom (nd_map d) /\ k ∈ ⋃ ((fun d => dom (nd_map d)) <$> ds)) \/
  share_key ds.
Proof.
  split.
  - intros (i & j & di & dj & k & Hij & Hi & Hj & Hki & Hkj).
    destruct i as [|i], j as [|j]; simpl in Hi, Hj; [done| | |].
    + left. injection Hi as <-. exists k. split; [done|].
      apply elem_of_dom_union_list. eauto.
    + left. injection Hj as <-. exists k. split; [done|].
      apply elem_of_dom_union_list. eauto.
    + right. exists i, j, di, dj, k. repeat split; auto.
  - intros [(k & Hk & Hu)|(i & j & di & dj & k & Hij & Hi & Hj & Hki & Hkj)].
    + apply elem_of_dom_union_list in Hu as (j & dj & Hj & Hkj).
      exists 0%nat, (S j), d, dj, k. repeat split; auto.
    + exists (S i), (S j), di, dj, k. repeat split; auto.
Qed.

Lemma sum_len_cons (d : NumDictK) (ds : list NumDictK) :
  sum_list (nd_len <$> d :: ds) = (nd_len d + sum_list (nd_len <$> ds))%nat.
Proof. reflexivity. Qed.

Lemma size_dom_union_le (ds : list NumDictK) :
  (size (⋃ ((fun d => dom (nd_map d)) <$> ds)) <= sum_list (nd_len <$> ds))%nat.
Proof.
  induction ds as [|d ds IH];
    [rewrite fmap_nil, union_list_nil, size_empty; simpl; lia|].
  rewrite dom_union_list_cons, size_union_alt, sum_len_cons.
  unfold nd_len at 1. rewrite <- size_dom.
  pose proof (subseteq_size (⋃ ((fun d => dom (nd_map d)) <$> ds) ∖ dom (nd_map d))
                (⋃ ((fun d => dom (nd_map d)) <$> ds)) ltac:(set_solver)).
  lia.
Qed.

Lemma share_key_size_lt (ds : list NumDictK) :
  share_key ds ->
  (size (⋃ ((fun d => dom (nd_map d)) <$> ds)) < sum_list (nd_len <$> ds))%nat.
Proof.
  induction ds as [|d ds IH].
  - intros (i & j & di & dj & k & _ & Hi & _). done.
  - rewrite share_key_cons, dom_union_list_cons, size_union_alt, sum_len_cons.
    unfold nd_len at 1. rewrite <- size_dom.
    intros [(k & Hk & Hu)|Hs].
    + pose proof (subset_size (⋃ ((fun d => dom (nd_map d)) <$> ds) ∖ dom (nd_map d))
                    (⋃ ((fun d => dom (nd_map d)) <$> ds))) as Hlt.
      specialize (Hlt ltac:(set_solver)).
      pose proof (size_dom_union_le ds). lia.
    + apply IH in Hs.
      pose proof (subseteq_size (⋃ ((fun d => dom (nd_map d)) <$> ds) ∖ dom (nd_map d))
                    (⋃ ((fun d => dom (nd_map d)) <$> ds)) ltac:(set_solver)).
      lia.
Qed.

Lemma size_lt_share_key (ds : list NumDictK) :
  (size (⋃ ((fun d => dom (nd_map d)) <$> ds)) < sum_list (nd_len <$> ds))%nat ->
  share_key ds.
Proof.
  induction ds as [|d ds IH];
    [rewrite fmap_nil, union_list_nil, size_empty; simpl; lia|].
  rewrite share_key_cons, dom_union_list_cons, sum_len_cons. intros Hlt.
  destruct (decide (dom (nd_map d) ∩ ⋃ ((fun d => dom (nd_map d)) <$> ds) = ∅))
    as [Hdisj|Hov].
  - right. apply IH. rewrite size_union in Hlt by set_solver.
    unfold nd_len at 1 in Hlt. rewrite <- size_dom in Hlt. lia.
  - left. apply set_choose_L in Hov as [k Hk]. exists k. set_solver.
Qed.

Lemma not_share_key_cons (d : NumDictK) (ds : list NumDictK) :
  ~ share_key (d :: ds) ->
  ~ share_key ds /\ forall d', d' ∈ ds -> dom (nd_map d) ## dom (nd_map d').
Proof.
  rewrite share_key_cons. intros Hn. split; [tauto|].
  intros d' Hd' k Hk Hk'. apply Hn. left. exists k. split; [done|].
  apply elem_of_dom_union_list. apply list_elem_of_lookup in Hd' as [j Hj]. eauto.
Qed.

(** [data.update(d)] for each operand in turn, on pairwise disjoint
    operands. *)
Lemma foldl_union_lookup (ds : list NumDictK) (acc : gmap K R) (k : K) (x : R) :
  ~ share_key ds -> (forall d, d ∈ ds -> dom (nd_map d) ## dom acc) ->
  (foldl (fun acc d => nd_map d ∪ acc) acc ds !! k = Some x <->
   acc !! k = Some x \/ exists d, d ∈ ds /\ nd_map d !! k = Some x).
Proof.
  revert acc. induction ds as [|d ds IH]; intros acc Hs Hacc; simpl.
  - split; [by left|]. intros [Hk|(d & Hd & _)]; [done|by apply elem_of_nil in Hd].
  - apply not_share_key_cons in Hs as [Hs Hdd].
    rewrite IH; [|done|].
    2:{ intros d' Hd'. rewrite dom_union_L.
        pose proof (Hdd d' Hd'). assert (dom (nd_map d') ## dom acc)
          by (apply Hacc; by right). set_solver. }
    rewrite lookup_union_Some_raw. split.
    + intros [[Hk|[_ Hk]]|(d' & Hd' & Hk)]; [right; exists d; split; [by left|done]
        |by left|right; exists d'; split; [by right|done]].
    + intros [Hk|(d' & Hd' & Hk)].
      * left. right. split; [|done].
        destruct (nd_map d !! k) eqn:Hdk; [|done]. exfalso.
        apply (Hacc d ltac:(by left) k); apply elem_of_dom; eauto.
      * apply elem_of_cons in Hd' as [->|Hd']; [left; by left|].
        right. eauto.
Qed.

Lemma remove_dups_length_1 (x : option R) (l : list (option R)) :
  length (remove_dups (x :: l)) = 1%nat <-> forall y, y ∈ x :: l -> y = x.
Proof.
  pose proof (NoDup_remove_dups (x :: l)) as Hnd.
  assert (Hx : x ∈ remove_dups (x :: l)) by (apply elem_of_remove_dups; by left).
  split.
  - destruct (remove_dups (x :: l)) as [|z [|z' r]] eqn:Hr; simpl; [lia| |lia].
    intros _ y Hy. rewrite <- elem_of_remove_dups, Hr in Hy.
    apply list_elem_of_singleton in Hy, Hx. congruence.
  - intros Hall.
    destruct (remove_dups (x :: l)) as [|z [|z' r]] eqn:Hr;
      [by apply elem_of_nil in Hx|done|].
    assert (z = x) by (apply Hall, elem_of_remove_dups; rewrite Hr; by left).
    assert (z' = x) by (apply Hall, elem_of_remove_dups; rewrite Hr; right; by left).
    subst. apply NoDup_cons in Hnd as [Hn _]. exfalso. apply Hn. by left.
Qed.

Lemma merge_ok_value (d0 : NumDictK) (ds : list NumDictK) (T : tape) :
  ~ (size (⋃ ((fun d => dom (nd_map d)) <$> d0 :: ds))
     < sum_list (nd_len <$> d0 :: ds))%nat ->
  value_of (merge (d0 :: ds)) T =
  inr (mkND (foldl (fun acc d => nd_map d ∪ acc) ∅ (d0 :: ds))
         (if decide (length (remove_dups (nd_default <$> d0 :: ds)) = 1%nat)
          then nd_default d0 else None)).
Proof. intros Hlt. unfold value_of, merge. rewrite decide_False by done. reflexivity. Qed.

(** C7: [merge( *ds)] raises exactly when [ds] is empty or two operands
    share an explicit key; on success its explicit mapping is the union of
    the operands' mappings, and its default is the operands' common
    default when they all have the same one, and [None] otherwise. *)
Theorem merge_raises_iff (ds : list NumDictK) (T : tape) :
  ((exists e, value_of (merge ds) T = inl e) <-> ds = [] \/ share_key ds) /\
  (forall v, value_of (merge ds) T = inr v ->
     (forall k x, nd_map v !! k = Some x <->
                  exists d, d ∈ ds /\ nd_map d !! k = Some x) /\
     (forall d0, ds !! 0%nat = Some d0 ->
        ((forall d, d ∈ ds -> nd_default d = nd_default d0) ->
         nd_default v = nd_default d0) /\
        ((exists d, d ∈ ds /\ nd_default d <> nd_default d0) ->
         nd_default v = None))).
Proof.
  split.
  - unfold value_of, merge. destruct ds as [|d0 ds].
    + split; [by left|]. intros _. by exists ValueError.
    + case_decide as Hlt.
      * split; [|by exists ValueError]. intros _. right.
        by apply size_lt_share_key.
      * split; [by intros [e He]|]. intros [Hn|Hs]; [done|].
        exfalso. by apply Hlt, share_key_size_lt.
  - intros v. destruct ds as [|d0 ds]; [done|].
    destruct (decide (size (⋃ ((fun d => dom (nd_map d)) <$> d0 :: ds))
                      < sum_list (nd_len <$> d0 :: ds))%nat) as [Hlt|Hlt].
    { unfold value_of, merge. rewrite decide_True by done. done. }
    assert (Hs : ~ share_key (d0 :: ds)) by (intros Hs; by apply Hlt, share_key_size_lt).
    rewrite merge_ok_value by done. intros Hv.
    assert (Hv' : v = mkND (foldl (fun acc d => nd_map d ∪ acc) ∅ (d0 :: ds))
          (if decide (length (remove_dups (nd_default <$> d0 :: ds)) = 1%nat)
           then nd_default d0 else None)) by congruence.
    subst v. cbn [nd_map nd_default]. split.
    + intros k x. etransitivity.
      { apply (foldl_union_lookup (d0 :: ds) ∅ k x Hs).
        intros d _. rewrite dom_empty_L. set_solver. }
      rewrite lookup_empty. naive_solver.
    + intros d0' [= <-].
      assert (Hlen : length (remove_dups (nd_default <$> d0 :: ds)) = 1%nat
                     <-> (forall d, d ∈ d0 :: ds -> nd_default d = nd_default d0)).
      { rewrite fmap_cons, remove_dups_length_1, <- fmap_cons. split.
        - intros Hall d Hd. apply Hall. by apply list_elem_of_fmap_2.
        - intros Hall y Hy. apply list_elem_of_fmap_1 in Hy as [d [-> Hd]].
          by apply Hall. }
      split.
      * intros Hall. case_decide as Hd; [done|]. exfalso. by apply Hd, Hlen.
      * intros (d & Hd & Hne). case_decide as Hall; [|done].
        exfalso. apply Hne. by apply Hlen.
Qed.

(** ** C9: merge of disjoint operands *)

Lemma share_key_singleton (d : NumDictK) : ~ share_key [d].
Proof.
  intros (i & j & di & dj & k & Hij & Hi & Hj & _).
  apply lookup_lt_Some in Hi, Hj. simpl in Hi, Hj. lia.
Qed.

Lemma merge2_run (a b : NumDictK) (T : tape) :
  dom (nd_map a) ## dom (nd_map b) ->
  merge [a; b] T =
  inr (mkND (nd_map a ∪ nd_map b)
         (if decide (nd_default a = nd_default b) then nd_default a else None),
       T ++ [mkRec OpMerge
               (mkND (nd_map a ∪ nd_map b)
                  (if decide (nd_default a = nd_default b) then nd_default a else None))
               [PTuple [a; b]]]).
Proof.
  intros Hab.
  assert (Hmap : foldl (fun acc d => nd_map d ∪ acc) ∅ [a; b] = nd_map a ∪ nd_map b).
  { simpl. rewrite (right_id_L ∅ (∪)). apply map_union_comm.
    apply map_disjoint_dom. set_solver. }
  assert (Hdef : (if decide (length (remove_dups (nd_default <$> [a; b])) = 1%nat)
                  then nd_default a else None) =
                 (if decide (nd_default a = nd_default b) then nd_default a else None)).
  { assert (Hiff : length (remove_dups (nd_default <$> [a; b])) = 1%nat <->
                   nd_default a = nd_default b).
    { rewrite fmap_cons, remove_dups_length_1. simpl. split.
      - intros Hall. symmetry. apply Hall. right. by left.
      - intros Heq y Hy. apply elem_of_cons in Hy as [->|Hy]; [done|].
        apply list_elem_of_singleton in Hy. congruence. }
    case_decide as H1; case_decide as H2; try done; exfalso; tauto. }
  unfold merge. rewrite decide_False.
  - rewrite Hmap, Hdef. reflexivity.
  - intros Hlt. apply size_lt_share_key, share_key_cons in Hlt as [(k & Hk & Hu)|Hs].
    + rewrite fmap_cons, fmap_nil, union_list_cons, union_list_nil in Hu. set_solver.
    + by apply share_key_singleton in Hs.
Qed.

(** C9: for operands with disjoint key sets, [merge(a, b)] and
    [merge(b, a)] are equal NumDicts, [len(merge(a, b)) == len(a) + len(b)],
    and for a third operand disjoint from both,
    [merge(merge(a, b), c)] equals [merge(a, merge(b, c))]. *)
Theorem merge_disjoint_comm_assoc (a b : NumDictK) (T : tape) :
  dom (nd_map a) ## dom (nd_map b) ->
  value_of (merge [a; b]) T = value_of (merge [b; a]) T /\
  (exists v, value_of (merge [a; b]) T = inr v /\
             nd_len v = (nd_len a + nd_len b)%nat) /\
  (forall c, dom (nd_map b) ## dom (nd_map c) -> dom (nd_map a) ## dom (nd_map c) ->
     exists v,
       value_of (let* ab := merge [a; b] in merge [ab; c]) T = inr v /\
       value_of (let* bc := merge [b; c] in merge [a; bc]) T = inr v).
Proof.
  intros Hab. split; [|split].
  - unfold value_of. rewrite (merge2_run a b), (merge2_run b a) by set_solver.
    rewrite map_union_comm by (apply map_disjoint_dom; set_solver).
    do 2 f_equal. case_decide; case_decide; congruence.
  - eexists. split.
    + unfold value_of. rewrite merge2_run by done. reflexivity.
    + unfold nd_len. simpl. apply map_size_disj_union, map_disjoint_dom, Hab.
  - intros c Hbc Hac. eexists. split.
    + unfold value_of, bind. rewrite merge2_run by done.
      rewrite merge2_run by (simpl; rewrite dom_union_L; set_solver).
      reflexivity.
    + unfold value_of, bind. rewrite merge2_run by done.
      rewrite merge2_run by (simpl; rewrite dom_union_L; set_solver).
      simpl. rewrite (assoc_L (∪)). do 3 f_equal.
      repeat case_decide; congruence.
Qed.

(** ** C8: transform_keys *)

Lemma transform_keys_fst (func : K -> K) (m : gmap K R) :
  ((fun kv : K * R => (func kv.1, kv.2)) <$> map_to_list m).*1 =
  func <$> (map_to_list m).*1.
Proof. rewrite <- !list_fmap_compose. apply list_fmap_ext. by intros i [k v]. Qed.

Lemma transform_keys_nodup (func : K -> K) (m : gmap K R) :
  (forall k1 k2, k1 ∈ dom m -> k2 ∈ dom m -> func k1 = func k2 -> k1 = k2) ->
  NoDup (((fun kv : K * R => (func kv.1, kv.2)) <$> map_to_list m).*1).
Proof.
  intros Hinj. rewrite transform_keys_fst.
  apply NoDup_fmap_2_strong; [|apply NoDup_fst_map_to_list].
  intros k1 k2 Hk1 Hk2. apply Hinj.
  - apply list_elem_of_fmap_1 in Hk1 as [[k v] [-> Hin]].
    apply elem_of_map_to_list in Hin. apply elem_of_dom. eauto.
  - apply list_elem_of_fmap_1 in Hk2 as [[k v] [-> Hin]].
    apply elem_of_map_to_list in Hin. apply elem_of_dom. eauto.
Qed.

Lemma transform_keys_lookup (func : K -> K) (m : gmap K R) (j : K) (x : R) :
  (forall k1 k2, k1 ∈ dom m -> k2 ∈ dom m -> func k1 = func k2 -> k1 = k2) ->
  (list_to_map ((fun kv : K * R => (func kv.1, kv.2)) <$> map_to_list m) : gmap K R)
    !! j = Some x <->
  exists k, j = func k /\ m !! k = Some x.
Proof.
  intros Hinj. rewrite <- elem_of_list_to_map by (by apply transform_keys_nodup).
  rewrite list_elem_of_fmap. split.
  - intros [[k v] [Heq Hin]]. injection Heq as -> ->.
    apply elem_of_map_to_list in Hin. eauto.
  - intros [k [-> Hk]]. exists (k, x). split; [done|].
    by apply elem_of_map_to_list.
Qed.

Lemma transform_keys_run (d : NumDictK) (func : K -> K) (T : tape) :
  (forall k1 k2, k1 ∈ dom (nd_map d) -> k2 ∈ dom (nd_map d) ->
                 func k1 = func k2 -> k1 = k2) ->
  exists mp, transform_keys d func T =
               inr (mkND mp (nd_default d), T ++ [mkRec OpTransformKeys (mkND mp (nd_default d)) [PND d]]) /\
             (forall j x, mp !! j = Some x <->
                          exists k, j = func k /\ nd_map d !! k = Some x).
Proof.
  intros Hinj. eexists. split.
  - unfold transform_keys. rewrite decide_False; [reflexivity|].
    unfold nd_len. rewrite map_size_list_to_map by (by apply transform_keys_nodup).
    rewrite length_fmap, length_map_to_list. intros Hn. by apply Hn.
  - intros j x. by apply transform_keys_lookup.
Qed.

(** C8: when [func] is injective on [d]'s keys and [g] undoes it on them,
    [transform_keys(transform_keys(d, func), g)] succeeds and has exactly
    [d]'s explicit mapping (and [d]'s default). *)
Theorem transform_keys_roundtrip (d : NumDictK) (func g : K -> K) (T : tape) :
  (forall k1 k2, k1 ∈ dom (nd_map d) -> k2 ∈ dom (nd_map d) ->
                 func k1 = func k2 -> k1 = k2) ->
  (forall k, k ∈ dom (nd_map d) -> g (func k) = k) ->
  exists v, value_of (let* d1 := transform_keys d func in transform_keys d1 g) T = inr v /\
            nd_map v = nd_map d /\ nd_default v = nd_default d.
Proof.
  intros Hinj Hinv.
  destruct (transform_keys_run d func T Hinj) as [mp1 [Hrun1 Hmp1]].
  assert (Hinj2 : forall j1 j2, j1 ∈ dom mp1 -> j2 ∈ dom mp1 -> g j1 = g j2 -> j1 = j2).
  { intros j1 j2 Hj1 Hj2 Hg.
    apply elem_of_dom in Hj1 as [x1 Hx1], Hj2 as [x2 Hx2].
    apply Hmp1 in Hx1 as [k1 [-> Hk1]], Hx2 as [k2 [-> Hk2]].
    rewrite !Hinv in Hg by (apply elem_of_dom; eauto). by subst. }
  destruct (transform_keys_run (mkND mp1 (nd_default d)) g
              (T ++ [mkRec OpTransformKeys (mkND mp1 (nd_default d)) [PND d]]) Hinj2)
    as [mp2 [Hrun2 Hmp2]].
  exists (mkND mp2 (nd_default d)). split; [|split; [|done]].
  - unfold value_of, bind. rewrite Hrun1. cbv beta iota. rewrite Hrun2. reflexivity.
  - simpl in Hmp2. apply map_eq. intros i.
    assert (Hiff : forall x, mp2 !! i = Some x <-> nd_map d !! i = Some x).
    { intros x. rewrite Hmp2. split.
      - intros [j [-> Hj]]. apply Hmp1 in Hj as [k [-> Hk]].
        rewrite Hinv by (apply elem_of_dom; eauto). done.
      - intros Hi. exists (func i). split.
        + symmetry. apply Hinv. apply elem_of_dom. eauto.
        + apply Hmp1. eauto. }
    simpl. destruct (mp2 !! i) as [y|] eqn:Hy.
    + symmetry. by apply Hiff.
    + destruct (nd_map d !! i) as [y|] eqn:Hy'; [|done].
      pose proof (proj2 (Hiff y) eq_refl). discriminate.
Qed.

(** ** C2: the records appended by one forward evaluation *)














(** ** isclose *)

Lemma isclose_run (a b : NumDictK) (T : tape) :
  (forall k, k ∈ dom (nd_map a) ∪ dom (nd_map b) ->
             is_Some (nd_get a k) /\ is_Some (nd_get b k)) ->
  exists mp,
    isclose a b T =
      inr (mkND mp (match nd_default a, nd_default b with
                    | Some x, Some y => Some (b2R (py_isclose x y))
                    | _, _ => None
                    end), T) /\
    (forall k x y, k ∈ dom (nd_map a) ∪ dom (nd_map b) ->
       nd_get a k = Some x -> nd_get b k = Some y ->
       mp !! k = Some (b2R (py_isclose x y))) /\
    (forall k, k ∉ dom (nd_map a) ∪ dom (nd_map b) -> mp !! k = None).
Proof.
  intros HS. unfold isclose.
  destruct (mapM _ _) as [kvs|] eqn:Hkvs.
  2:{ exfalso. apply mapM_None_1, Exists_exists in Hkvs as [k [Hk Hn]].
      apply elem_of_elements in Hk. destruct (HS k Hk) as [[x Hx] [y Hy]].
      cbv beta in Hn. rewrite Hx, Hy in Hn. discriminate. }
  pose proof (mapM_Some_1 _ _ _ Hkvs) as HF.
  assert (Hfst : kvs.*1 = elements (dom (nd_map a) ∪ dom (nd_map b))).
  { clear - HF. induction HF as [|k kv l' kvs' Hk _ IH]; [done|].
    csimpl. rewrite IH. cbv beta in Hk.
    destruct (nd_get a k), (nd_get b k); simpl in Hk; try discriminate.
    injection Hk as <-. done. }
  exists (list_to_map kvs). split; [reflexivity|]. split.
  - intros k x y Hk Hx Hy. apply elem_of_list_to_map.
    { rewrite Hfst. apply NoDup_elements. }
    apply elem_of_elements, list_elem_of_lookup in Hk as [j Hj].
    destruct (Forall2_lookup_l _ _ _ _ _ HF Hj) as [kv [Hkv Hf]].
    cbv beta in Hf. rewrite Hx, Hy in Hf. simpl in Hf. injection Hf as <-.
    by eapply list_elem_of_lookup_2.
  - intros k Hk. apply not_elem_of_list_to_map_1. rewrite Hfst.
    by rewrite elem_of_elements.
Qed.

Lemma py_isclose_refl (x : R) : py_isclose x x = true.
Proof.
  unfold py_isclose, Rleb. destruct Rle_dec as [|Hn]; [done|].
  exfalso. apply Hn. replace (x - x) with 0 by ring. rewrite Rabs_R0.
  apply Rmax_r.
Qed.

Lemma py_isclose_far (x y : R) :
  0 <= x -> x < y -> y / 1000000000 < y - x -> py_isclose x y = false.
Proof.
  intros Hx Hxy Hfar. unfold py_isclose, Rleb.
  rewrite Rabs_minus_sym, (Rabs_pos_eq (y - x)) by lra.
  rewrite (Rabs_pos_eq x), (Rabs_pos_eq y) by lra.
  rewrite (Rmax_right x y) by lra. rewrite Rmax_left.
  - destruct Rle_dec as [Hle|]; [|done]. exfalso. unfold Rdiv in Hfar.
    rewrite Rmult_comm in Hle. lra.
  - apply Rmult_le_pos; [|lra]. left. apply Rinv_0_lt_compat. lra.
Qed.

End Proofs.

(** * Concrete evaluations *)

Lemma d_abc_lookup (i : string) :
  nd_map d_abc !! i =
  if decide ("a"%string = i) then Some 1
  else if decide ("b"%string = i) then Some 2
  else if decide ("c"%string = i) then Some 3 else None.
Proof. unfold d_abc, ND. simpl. rewrite !lookup_insert, lookup_singleton. reflexivity. Qed.

Lemma grad_abc_lookup (i : string) :
  nd_map grad_abc !! i =
  if decide ("a"%string = i) then Some 0
  else if decide ("b"%string = i) then Some 0
  else if decide ("c"%string = i) then Some 1 else None.
Proof. unfold grad_abc, ND. simpl. rewrite !lookup_insert, lookup_singleton. reflexivity. Qed.

Lemma py_max_abc : py_max (values d_abc) = Some 3.
Proof.
  assert (H3 : 3 ∈ values d_abc).
  { apply elem_of_values. exists "c"%string. rewrite d_abc_lookup. reflexivity. }
  destruct (py_max (values d_abc)) as [r|] eqn:Hm.
  - apply py_max_spec in Hm as [Hin Hub]. apply Hub in H3.
    apply elem_of_values in Hin as [k Hk]. rewrite d_abc_lookup in Hk.
    repeat case_decide; try discriminate; injection Hk as <-;
      first [reflexivity | exfalso; lra].
  - destruct (values d_abc); [by apply elem_of_nil in H3|discriminate].
Qed.

Lemma reduce_max_abc_run (T : tape) :
  reduce_max d_abc None T =
  inr (mkND ∅ (Some 3), T ++ [mkRec OpReduceMax (mkND ∅ (Some 3)) [PND d_abc]]).
Proof. unfold reduce_max. rewrite py_max_abc. reflexivity. Qed.


(** C5: on [d = {a: 1.0, b: 2.0, c: 3.0}], [reduce_max(d)] is the
    default-only NumDict [3.0], and reduce_max's backward rule with the
    upstream gradient [NumDict(default=1.0)] returns [{a: 0, b: 0, c: 1}]. *)
Theorem reduce_max_grad_abc (T : tape) :
  value_of (reduce_max d_abc None) T = inr (mkND ∅ (Some 3)) /\
  value_of (_grad_reduce_max (mkND ∅ (Some 1)) d_abc None) T = inr [grad_abc].
Proof.
  split; [unfold value_of; by rewrite reduce_max_abc_run|].
  set (T1 := T ++ [mkRec OpReduceMax (mkND ∅ (Some 3)) [PND d_abc]]).
  destruct (isclose_run d_abc (mkND ∅ (Some 3)) T1) as (mp & Hrun & Hin & Hout).
  { intros k Hk. unfold nd_get. simpl. rewrite lookup_empty. split; [|by eexists].
    simpl in Hk. rewrite dom_empty_L in Hk.
    apply elem_of_union in Hk as [Hk|Hk]; [|set_solver].
    apply elem_of_dom in Hk as [x Hx]. rewrite Hx. by eexists. }
  assert (Hdom : forall k x, nd_map d_abc !! k = Some x ->
                 k ∈ dom (nd_map d_abc) ∪ dom (nd_map (mkND (K:=string) ∅ (Some 3)))).
  { intros k x Hk. apply elem_of_union_l, elem_of_dom. by eexists. }
  unfold value_of, _grad_reduce_max, bind, ret. cbv beta iota.
  rewrite reduce_max_abc_run.
  cbv beta iota. fold T1. rewrite Hrun. cbv beta iota.
  unfold nd_scalar, nd_unop, bind, record_call, ret, nd_pointwise, grad_abc, ND.
  cbv beta iota. cbn [nd_map nd_default].
  do 3 f_equal. apply map_eq. intros i. rewrite lookup_fmap, grad_abc_lookup.
  case_decide as Ha; [subst i|case_decide as Hb; [subst i|case_decide as Hc; [subst i|]]].
  - rewrite (Hin "a"%string 1 3); [|eapply Hdom; reflexivity|reflexivity|reflexivity].
    rewrite py_isclose_far by lra. simpl. f_equal. lra.
  - rewrite (Hin "b"%string 2 3); [|eapply Hdom; reflexivity|reflexivity|reflexivity].
    rewrite py_isclose_far by lra. simpl. f_equal. lra.
  - rewrite (Hin "c"%string 3 3); [|eapply Hdom; reflexivity|reflexivity|reflexivity].
    rewrite py_isclose_refl. simpl. f_equal. lra.
  - rewrite Hout; [reflexivity|]. intros Hi. simpl in Hi. rewrite dom_empty_L in Hi.
    apply elem_of_union in Hi as [Hi|Hi]; [|set_solver].
    apply elem_of_dom in Hi as [x Hx]. rewrite d_abc_lookup in Hx.
    rewrite !decide_False in Hx by done. discriminate.
Qed.

(** C1: with only a predicate given, [drop] is not the complement of
    [keep]: on [d = {a: 1.0}] with [func = lambda k: False], [keep] keeps
    nothing and [drop] keeps nothing either, so the key [a] is in neither
    result ([drop] tests [func is not None and not func(k)] AND
    [keys is not None and k not in keys], and the second test is false
    whenever [keys] is omitted). *)
Theorem drop_not_complement_of_keep :
  nd_map d_one !! "a"%string = Some 1 /\
  value_of (keep d_one (Some never) None) [] = inr (mkND ∅ None) /\
  value_of (drop d_one (Some never) None) [] = inr (mkND ∅ None).
Proof. split; [reflexivity|]. split; reflexivity. Qed.


(** C3: [low = low or float("-inf")] treats a supplied [low = 0.0] as
    omitted, so [clip({a: -1.0}, low=0.0)] leaves [-1.0] in place instead
    of clamping it to [max(0.0, min(inf, -1.0)) = 0.0]. *)
Theorem clip_zero_low_not_clamped :
  value_of (clip d_neg (Some 0) None) [] = inr (ND {["a"%string := -1]}) /\
  Rmax 0 (-1) = 0.
Proof.
  split.
  - unfold value_of, clip, d_neg, ND. simpl. unfold py_or_inf.
    destruct (Req_EM_T 0 0) as [_|Hn]; [|by destruct Hn].
    rewrite map_fmap_singleton. reflexivity.
  - apply Rmax_left. lra.
Qed.

(** * Witnesses *)

Lemma boltzmann_softmax_witness :
  (0 < nd_len d_abc)%nat /\ 0 < 1 /\
  exists v M0,
    value_of (boltzmann d_abc 1) [] = inr v /\
    M0 ∈ values d_abc /\ (forall y, y ∈ values d_abc -> y <= M0) /\
    dom (nd_map v) = dom (nd_map d_abc) /\
    (forall k x, nd_map d_abc !! k = Some x ->
       nd_map v !! k =
         Some (exp (x / 1 - M0 / 1) /
               py_sum ((fun y => exp (y / 1 - M0 / 1)) <$> values d_abc))) /\
    py_sum (values v) = 1.
Proof.
  assert (Hlen : (0 < nd_len d_abc)%nat) by (vm_compute; lia).
  split; [exact Hlen|]. split; [lra|].
  apply (boltzmann_softmax d_abc 1 [] Hlen). lra.
Defined.

Lemma transform_keys_roundtrip_witness :
  (forall k1 k2, k1 ∈ dom (nd_map d_abc) -> k2 ∈ dom (nd_map d_abc) ->
                 prefix_k k1 = prefix_k k2 -> k1 = k2) /\
  (forall k, k ∈ dom (nd_map d_abc) -> strip_first (prefix_k k) = k) /\
  exists v, value_of (let* d1 := transform_keys d_abc prefix_k in
                      transform_keys d1 strip_first) [] = inr v /\
            nd_map v = nd_map d_abc /\ nd_default v = nd_default d_abc.
Proof.
  assert (Hinj : forall k1 k2, k1 ∈ dom (nd_map d_abc) -> k2 ∈ dom (nd_map d_abc) ->
                 prefix_k k1 = prefix_k k2 -> k1 = k2).
  { intros k1 k2 _ _ Heq. unfold prefix_k in Heq. simpl in Heq.
    injection Heq. done. }
  assert (Hinv : forall k, k ∈ dom (nd_map d_abc) -> strip_first (prefix_k k) = k)
    by (intros k _; reflexivity).
  split; [exact Hinj|]. split; [exact Hinv|].
  exact (transform_keys_roundtrip d_abc prefix_k strip_first [] Hinj Hinv).
Defined.

Lemma merge_disjoint_comm_assoc_witness :
  dom (nd_map d_one) ## dom (nd_map d_two) /\
  value_of (merge [d_one; d_two]) [] = value_of (merge [d_two; d_one]) [].
Proof.
  assert (Hd : dom (nd_map d_one) ## dom (nd_map d_two)).
  { unfold d_one, d_two, ND. simpl. rewrite !dom_singleton_L. set_solver. }
  split; [exact Hd|].
  exact (proj1 (merge_disjoint_comm_assoc d_one d_two [] Hd)).
Defined.

Lemma reduce_sum_empty_ok_witness :
  nd_map d_empty = ∅ /\
  value_of (reduce_sum d_empty None) [] = inr (mkND ∅ (Some 0)).
Proof.
  split; [reflexivity|].
  exact (proj1 (reduce_sum_empty_ok d_empty [] eq_refl)).
Defined.

(** * Further properties of [numdicts/ops.py] *)

Section Extras.
Context {K : Type} `{Countable K}.
Local Abbreviation NumDictK := (@NumDict K _ _).

Lemma comp_pairs (e : K -> R -> option R) (l kvs : list (K * R)) :
  Forall2 (fun kv y => (z ← e kv.1 kv.2; Some (kv.1, z)) = Some y) l kvs ->
  kvs.*1 = l.*1 /\
  forall k y, (k, y) ∈ kvs <-> exists x, (k, x) ∈ l /\ e k x = Some y.
Proof.
  induction 1 as [|[k0 x0] y0 l kvs Hy Hf [IH1 IH2]].
  - split; [done|]. intros k y. split; [intros Hin; by apply elem_of_nil in Hin|].
    intros (x & Hx & _). by apply elem_of_nil in Hx.
  - simpl in Hy. destruct (e k0 x0) as [z|] eqn:He; simpl in Hy; [|discriminate].
    injection Hy as <-. rewrite !fmap_cons, IH1. split; [done|].
    intros k y. rewrite elem_of_cons, IH2. split.
    + intros [[= -> ->]|(x & Hx & Hex)]; [exists x0; split; [by left|done]|].
      exists x; split; [by right|done].
    + intros (x & Hx & Hex). apply elem_of_cons in Hx as [[= -> ->]|Hx].
      * left. congruence.
      * right. eauto.
Qed.

Lemma dict_comp_Some (d : NumDictK) (e : K -> R -> option R) (m : gmap K R) :
  dict_comp d e = Some m ->
  forall k y, m !! k = Some y <-> exists x, nd_map d !! k = Some x /\ e k x = Some y.
Proof.
  unfold dict_comp. destruct (mapM _ _) as [kvs|] eqn:Hm; simpl; [|discriminate].
  intros [= <-]. apply mapM_Some_1 in Hm. apply comp_pairs in Hm as [H1 H2].
  intros k y.
  rewrite <- elem_of_list_to_map by (rewrite H1; apply NoDup_fst_map_to_list).
  rewrite H2. setoid_rewrite elem_of_map_to_list. done.
Qed.

Lemma dict_comp_lookup (d : NumDictK) (e : K -> R -> option R) (m : gmap K R) (k : K) :
  dict_comp d e = Some m -> m !! k = nd_map d !! k ≫= e k.
Proof.
  intros Hm. pose proof (dict_comp_Some d e m Hm k) as Hk.
  destruct (m !! k) as [y|] eqn:Hy.
  - destruct (proj1 (Hk y) eq_refl) as (x & Hx & He). by rewrite Hx.
  - destruct (nd_map d !! k) as [x|] eqn:Hx; [|done]. simpl.
    destruct (e k x) as [y|] eqn:He; [|done].
    pose proof (proj2 (Hk y) ltac:(eauto)). discriminate.
Qed.

Lemma dict_comp_None (d : NumDictK) (e : K -> R -> option R) :
  dict_comp d e = None <-> exists k x, nd_map d !! k = Some x /\ e k x = None.
Proof.
  unfold dict_comp. split.
  - destruct (mapM _ _) eqn:Hm; [discriminate|]. intros _.
    apply mapM_None_1, Exists_exists in Hm as ([k x] & Hin & He).
    apply elem_of_map_to_list in Hin. exists k, x. split; [done|].
    simpl in He. destruct (e k x); [discriminate|done].
  - intros (k & x & Hk & He). rewrite mapM_None_2; [done|].
    apply Exists_exists. exists (k, x). split; [by apply elem_of_map_to_list|].
    simpl. by rewrite He.
Qed.

Lemma dict_comp_dom (d : NumDictK) (e : K -> R -> option R) (m : gmap K R) :
  dict_comp d e = Some m -> dom m = dom (nd_map d).
Proof.
  intros Hm. apply set_eq. intros k. rewrite !elem_of_dom.
  rewrite (dict_comp_lookup d e m k Hm).
  destruct (nd_map d !! k) as [x|] eqn:Hx; simpl; [|done].
  destruct (e k x) eqn:He; [done|].
  assert (dict_comp d e = None) by (apply dict_comp_None; eauto). congruence.
Qed.

(** The backward rules that scale [grads[k]] by a Python boolean. *)
Lemma grad_mask_None (grads d : NumDictK) (c : K -> R -> bool) :
  dict_comp d (fun k x => g ← nd_get grads k; Some (b2R (c k x) * g)) = None <->
  exists k, k ∈ dom (nd_map d) /\ nd_get grads k = None.
Proof.
  rewrite dict_comp_None. split.
  - intros (k & x & Hk & He). exists k. split; [apply elem_of_dom; eauto|].
    destruct (nd_get grads k); [discriminate|done].
  - intros (k & Hk & Hg). apply elem_of_dom in Hk as [x Hx].
    exists k, x. rewrite Hg. done.
Qed.

Lemma grad_mask_lookup (grads d : NumDictK) (c : K -> R -> bool) (m : gmap K R)
    (k : K) (x g : R) :
  dict_comp d (fun k x => g ← nd_get grads k; Some (b2R (c k x) * g)) = Some m ->
  nd_map d !! k = Some x -> nd_get grads k = Some g ->
  m !! k = Some (if c k x then g else 0).
Proof.
  intros Hm Hx Hg. rewrite (dict_comp_lookup _ _ _ k Hm), Hx. simpl.
  rewrite Hg. simpl. unfold b2R. destruct (c k x); f_equal; ring.
Qed.

Lemma grad_mask_shape (grads d : NumDictK) (c : K -> R -> bool) (kept m : gmap K R) :
  (forall k, k ∈ dom kept <-> exists x, nd_map d !! k = Some x /\ c k x = true) ->
  dict_comp d (fun k x => g ← nd_get grads k; Some (b2R (c k x) * g)) = Some m ->
  dom m = dom (nd_map d) /\
  forall k g, nd_get grads k = Some g ->
    (k ∈ dom kept -> m !! k = Some g) /\
    (k ∈ dom (nd_map d) -> k ∉ dom kept -> m !! k = Some 0).
Proof.
  intros Hkept Hm. split; [by eapply dict_comp_dom|]. intros k g Hg. split.
  - intros Hk. apply Hkept in Hk as (x & Hx & Hc).
    rewrite (grad_mask_lookup grads d c m k x g Hm Hx Hg), Hc. done.
  - intros Hk Hnk. apply elem_of_dom in Hk as [x Hx].
    rewrite (grad_mask_lookup grads d c m k x g Hm Hx Hg).
    destruct (c k x) eqn:Hc; [|done]. exfalso. apply Hnk, Hkept. eauto.
Qed.

(** [_grad_threshold]: the backward rule raises [KeyError] exactly when
    some explicit key of [d] has no gradient in [grads]; otherwise it
    returns one NumDict over the keys of [d], passing the gradient through
    on the keys [threshold] keeps and [0] on the keys it drops; its default
    is [grads.default] when [d] has a default, else [None]. *)
Theorem grad_threshold_masks (grads d : NumDictK) (th : R) (kd : bool) (T : tape) :
  (value_of (_grad_threshold grads d th) T = inl KeyError <->
   exists k, k ∈ dom (nd_map d) /\ nd_get grads k = None) /\
  (forall gs, value_of (_grad_threshold grads d th) T = inr gs ->
   exists v gd, value_of (threshold d th kd) T = inr v /\ gs = [gd] /\
     dom (nd_map gd) = dom (nd_map d) /\
     (forall k g, nd_get grads k = Some g ->
        (k ∈ dom (nd_map v) -> nd_map gd !! k = Some g) /\
        (k ∈ dom (nd_map d) -> k ∉ dom (nd_map v) -> nd_map gd !! k = Some 0)) /\
     nd_default gd = match nd_default d with
                     | None => None
                     | Some _ => nd_default grads
                     end).
Proof.
  unfold _grad_threshold, value_of.
  destruct (dict_comp d _) as [m|] eqn:Hm.
  - split.
    + split; [discriminate|]. intros Hex.
      apply (grad_mask_None grads d (fun _ x => Rltb th x)) in Hex. congruence.
    + intros gs [= <-]. eexists _, _. split; [reflexivity|]. split; [reflexivity|].
      cbn [nd_map nd_default].
      destruct (grad_mask_shape grads d (fun _ x => Rltb th x)
                  (filter (fun kv : K * R => Rltb th kv.2 = true) (nd_map d)) m)
        as [Hdom Hk]; [|exact Hm|].
      { intros k. rewrite elem_of_dom. split.
        - intros [x Hx]. apply map_lookup_filter_Some in Hx. naive_solver.
        - intros (x & Hx & Hc). exists x. apply map_lookup_filter_Some. naive_solver. }
      split; [done|]. split; [done|]. reflexivity.
  - split; [|intros ? ?; discriminate]. split; [intros _|done].
    by apply (grad_mask_None grads d (fun _ x => Rltb th x)).
Qed.

Lemma keep_kept_dom (d : NumDictK) (func keys : option (K -> bool)) (k : K) :
  k ∈ dom (filter (fun kv : K * R => keep_sel func keys kv.1 = true) (nd_map d)) <->
  exists x, nd_map d !! k = Some x /\ keep_sel func keys k = true.
Proof.
  rewrite elem_of_dom. split.
  - intros [x Hx]. apply map_lookup_filter_Some in Hx. naive_solver.
  - intros (x & Hx & Hc). exists x. apply map_lookup_filter_Some. naive_solver.
Qed.

Lemma drop_kept_dom (d : NumDictK) (func keys : option (K -> bool)) (k : K) :
  k ∈ dom (filter (fun kv : K * R => drop_sel func keys kv.1 = true) (nd_map d)) <->
  exists x, nd_map d !! k = Some x /\ drop_sel func keys k = true.
Proof.
  rewrite elem_of_dom. split.
  - intros [x Hx]. apply map_lookup_filter_Some in Hx. naive_solver.
  - intros (x & Hx & Hc). exists x. apply map_lookup_filter_Some. naive_solver.
Qed.

(** [_grad_keep]: raises [KeyError] exactly when some explicit key of [d]
    has no gradient; otherwise one NumDict over the keys of [d] with
    default [grads.default], passing the gradient through on the keys
    [keep] keeps and [0] on the others. *)
Theorem grad_keep_masks (grads d : NumDictK) (func keys : option (K -> bool)) (T : tape) :
  (value_of (_grad_keep grads d func keys) T = inl KeyError <->
   exists k, k ∈ dom (nd_map d) /\ nd_get grads k = None) /\
  (forall gs v, value_of (_grad_keep grads d func keys) T = inr gs ->
   value_of (keep d func keys) T = inr v ->
   exists gd, gs = [gd] /\ dom (nd_map gd) = dom (nd_map d) /\
     nd_default gd = nd_default grads /\
     forall k g, nd_get grads k = Some g ->
        (k ∈ dom (nd_map v) -> nd_map gd !! k = Some g) /\
        (k ∈ dom (nd_map d) -> k ∉ dom (nd_map v) -> nd_map gd !! k = Some 0)).
Proof.
  unfold _grad_keep, value_of.
  destruct (dict_comp d _) as [m|] eqn:Hm.
  - split.
    + split; [discriminate|]. intros Hex.
      apply (grad_mask_None grads d (fun k _ => keep_sel func keys k)) in Hex.
      congruence.
    + intros gs v [= <-] Hv. exists (mkND m (nd_default grads)).
      split; [done|]. cbn [nd_map nd_default].
      assert (Hv' : nd_map v =
                    filter (fun kv : K * R => keep_sel func keys kv.1 = true) (nd_map d)).
      { unfold keep in Hv. destruct func, keys; try discriminate; by injection Hv as <-. }
      rewrite Hv'.
      destruct (grad_mask_shape grads d (fun k _ => keep_sel func keys k)
                  (filter (fun kv : K * R => keep_sel func keys kv.1 = true) (nd_map d)) m)
        as [Hdom Hk]; [apply keep_kept_dom|exact Hm|].
      split; [done|]. split; [done|]. done.
  - split; [|intros ? ? ?; discriminate]. split; [intros _|done].
    by apply (grad_mask_None grads d (fun k _ => keep_sel func keys k)).
Qed.

(** [_grad_drop]: raises [KeyError] exactly when some explicit key of [d]
    has no gradient; otherwise one NumDict over the keys of [d] with
    default [grads.default], passing the gradient through on the keys
    [drop] keeps and [0] on the dropped ones. *)
Theorem grad_drop_masks (grads d : NumDictK) (func keys : option (K -> bool)) (T : tape) :
  (value_of (_grad_drop grads d func keys) T = inl KeyError <->
   exists k, k ∈ dom (nd_map d) /\ nd_get grads k = None) /\
  (forall gs v, value_of (_grad_drop grads d func keys) T = inr gs ->
   value_of (drop d func keys) T = inr v ->
   exists gd, gs = [gd] /\ dom (nd_map gd) = dom (nd_map d) /\
     nd_default gd = nd_default grads /\
     forall k g, nd_get grads k = Some g ->
        (k ∈ dom (nd_map v) -> nd_map gd !! k = Some g) /\
        (k ∈ dom (nd_map d) -> k ∉ dom (nd_map v) -> nd_map gd !! k = Some 0)).
Proof.
  unfold _grad_drop, value_of.
  destruct (dict_comp d _) as [m|] eqn:Hm.
  - split.
    + split; [discriminate|]. intros Hex.
      apply (grad_mask_None grads d (fun k _ => drop_sel func keys k)) in Hex.
      congruence.
    + intros gs v [= <-] Hv. exists (mkND m (nd_default grads)).
      split; [done|]. cbn [nd_map nd_default].
      assert (Hv' : nd_map v =
                    filter (fun kv : K * R => drop_sel func keys kv.1 = true) (nd_map d)).
      { unfold drop in Hv. destruct func, keys; try discriminate; by injection Hv as <-. }
      rewrite Hv'.
      destruct (grad_mask_shape grads d (fun k _ => drop_sel func keys k)
                  (filter (fun kv : K * R => drop_sel func keys kv.1 = true) (nd_map d)) m)
        as [Hdom Hk]; [apply drop_kept_dom|exact Hm|].
      split; [done|]. split; [done|]. done.
  - split; [|intros ? ? ?; discriminate]. split; [intros _|done].
    by apply (grad_mask_None grads d (fun k _ => drop_sel func keys k)).
Qed.

(** [keep] and [drop] with the same [func] and [keys] split the explicit
    mapping of [d] into two disjoint parts whose union is the whole
    mapping; both keep the default of [d]. *)
Theorem keep_drop_partition (d : NumDictK) (f ks : K -> bool) (T : tape) :
  exists vk vd, value_of (keep d (Some f) (Some ks)) T = inr vk /\
    value_of (drop d (Some f) (Some ks)) T = inr vd /\
    nd_map vk ##ₘ nd_map vd /\ nd_map vk ∪ nd_map vd = nd_map d /\
    nd_default vk = nd_default d /\ nd_default vd = nd_default d.
Proof.
  do 2 eexists. split; [reflexivity|]. split; [reflexivity|]. cbn [nd_map nd_default].
  assert (Hf : filter (fun kv : K * R => drop_sel (Some f) (Some ks) kv.1 = true) (nd_map d) =
               filter (fun kv : K * R => ¬ (keep_sel (Some f) (Some ks) kv.1 = true)) (nd_map d)).
  { apply map_filter_ext. intros k x _. simpl. unfold keep_sel, drop_sel.
    destruct (f k), (ks k); simpl; split; intros; done. }
  rewrite Hf. split; [apply map_disjoint_filter_complement|].
  split; [apply map_filter_union_complement|]. done.
Qed.

Lemma Rmax_lt_iff (a b x : R) : Rmax a b < x <-> a < x /\ b < x.
Proof.
  split.
  - intros Hx. pose proof (Rmax_l a b). pose proof (Rmax_r a b). lra.
  - intros [Ha Hb]. by apply Rmax_lub_lt.
Qed.

Lemma Rltb_true (a b : R) : Rltb a b = true <-> a < b.
Proof. unfold Rltb. destruct (Rlt_dec a b); split; intros; done. Qed.

Lemma Rltb_false (a b : R) : Rltb a b = false <-> ~ a < b.
Proof. unfold Rltb. destruct (Rlt_dec a b); split; intros; done. Qed.

(** Thresholding twice is thresholding once at the larger threshold. *)
Theorem threshold_threshold (d : NumDictK) (th1 th2 : R) (kd : bool) (T : tape) :
  value_of (let* d1 := threshold d th1 kd in threshold d1 th2 kd) T =
  value_of (threshold d (Rmax th1 th2) kd) T.
Proof.
  unfold value_of, bind, threshold, record_call, ret. cbn [nd_map nd_default].
  f_equal. f_equal; cbn [nd_map nd_default].
  - rewrite map_filter_filter. apply map_filter_ext. intros k x _. simpl.
    rewrite !Rltb_true, Rmax_lt_iff. tauto.
  - destruct (nd_default d) as [dd|]; [|done].
    pose proof (Rmax_lt_iff th1 th2 dd).
    destruct kd; [done|]. simpl.
    destruct (Rltb th1 dd) eqn:E1; simpl; destruct (Rltb th2 dd) eqn:E2;
      destruct (Rltb (Rmax th1 th2) dd) eqn:E3; try done; exfalso;
      repeat match goal with
             | E : Rltb _ _ = true |- _ => apply Rltb_true in E
             | E : Rltb _ _ = false |- _ => apply Rltb_false in E
             end; tauto.
Qed.

(** [clip] is idempotent: clipping a clipped NumDict again with the same
    bounds gives the same result. *)
Theorem clip_idempotent (d : NumDictK) (low high : option R) (T : tape) :
  value_of (let* d1 := clip d low high in clip d1 low high) T =
  value_of (clip d low high) T.
Proof.
  unfold value_of, bind, clip, record_call, ret. cbn [nd_map nd_default].
  do 2 f_equal. cbn [nd_map nd_default]. rewrite <- map_fmap_compose. apply map_fmap_ext. intros k x _.
  simpl. destruct (py_or_inf low) as [l|], (py_or_inf high) as [h|];
    unfold max_low, min_high, py_max2, py_min2, Rltb; repeat case_match; lra.
Qed.

Lemma py_max2_Rmax (a b : R) : py_max2 a b = Rmax a b.
Proof. unfold py_max2, Rltb, Rmax. repeat case_match; lra. Qed.

Lemma py_min2_Rmin (a b : R) : py_min2 a b = Rmin a b.
Proof. unfold py_min2, Rltb, Rmin. repeat case_match; lra. Qed.

Lemma py_or_inf_nonzero (l : R) : l <> 0 -> py_or_inf (Some l) = Some l.
Proof. intros Hl. unfold py_or_inf. by destruct (Req_EM_T l 0). Qed.

(** [clip] with nonzero bounds [l] and [h] maps each explicit value [x]
    to [max(l, min(h, x))] and keeps the default; when [l <= h] every
    explicit value of the result lies in [[l, h]]. *)
Theorem clip_nonzero_bounds (d : NumDictK) (l h : R) (T : tape) :
  l <> 0 -> h <> 0 ->
  exists v, value_of (clip d (Some l) (Some h)) T = inr v /\
    nd_default v = nd_default d /\
    (forall k, nd_map v !! k = (fun x => Rmax l (Rmin h x)) <$> nd_map d !! k) /\
    (l <= h -> forall k y, nd_map v !! k = Some y -> l <= y <= h).
Proof.
  intros Hl Hh. eexists. split; [reflexivity|]. cbn [nd_map nd_default].
  rewrite !py_or_inf_nonzero by done. split; [done|].
  assert (Hk : forall k, ((fun v => max_low (Some l) (min_high (Some h) v)) <$> nd_map d) !! k =
                         (fun x => Rmax l (Rmin h x)) <$> nd_map d !! k).
  { intros k. rewrite lookup_fmap. apply option_fmap_ext. intros x.
    simpl. by rewrite py_max2_Rmax, py_min2_Rmin. }
  split; [done|]. intros Hlh k y Hy. rewrite Hk in Hy.
  apply fmap_Some in Hy as (x & _ & ->).
  pose proof (Rmax_l l (Rmin h x)). pose proof (Rmin_l h x).
  split; [done|]. apply Rmax_lub; [done|]. done.
Qed.

(** [_grad_clip] with nonzero bounds: it raises [KeyError] exactly when
    some explicit key of [d] has no gradient; otherwise the gradient is
    passed through where [l < x < h] (where [clip] leaves [x] unchanged)
    and is [0] where [x <= l] or [h <= x]. *)
Theorem grad_clip_masks (grads d : NumDictK) (l h : R) (T : tape) :
  l <> 0 -> h <> 0 ->
  (value_of (_grad_clip grads d (py_or_inf (Some l)) (py_or_inf (Some h))) T = inl KeyError <->
   exists k, k ∈ dom (nd_map d) /\ nd_get grads k = None) /\
  (forall gs, value_of (_grad_clip grads d (py_or_inf (Some l)) (py_or_inf (Some h))) T = inr gs ->
   exists v gd, value_of (clip d (Some l) (Some h)) T = inr v /\ gs = [gd] /\
     dom (nd_map gd) = dom (nd_map d) /\ nd_default gd = nd_default grads /\
     forall k x g, nd_map d !! k = Some x -> nd_get grads k = Some g ->
       (l < x < h -> nd_map gd !! k = Some g /\ nd_map v !! k = Some x) /\
       (x <= l \/ h <= x -> nd_map gd !! k = Some 0)).
Proof.
  intros Hl Hh. rewrite !py_or_inf_nonzero by done.
  unfold _grad_clip, value_of.
  destruct (dict_comp d _) as [m|] eqn:Hm.
  - split.
    + split; [discriminate|]. intros Hex.
      apply (grad_mask_None grads d (fun _ x => in_open (Some l) (Some h) x)) in Hex.
      congruence.
    + intros gs [= <-]. eexists _, (mkND m (nd_default grads)).
      split; [reflexivity|]. split; [done|]. cbn [nd_map nd_default].
      split; [by eapply dict_comp_dom|]. split; [done|].
      intros k x g Hx Hg.
      pose proof (grad_mask_lookup grads d (fun _ x => in_open (Some l) (Some h) x)
                    m k x g Hm Hx Hg) as Hk. simpl in Hk.
      rewrite py_or_inf_nonzero by done. rewrite py_or_inf_nonzero by done.
      unfold in_open, Rltb in Hk. split.
      * intros Hin. rewrite Hk. rewrite lookup_fmap, Hx. simpl.
        unfold py_max2, py_min2, Rltb.
        destruct (Rlt_dec l x), (Rlt_dec x h); simpl; try lra.
        split; [done|]. repeat case_match; f_equal; lra.
      * intros Hout. rewrite Hk.
        destruct (Rlt_dec l x), (Rlt_dec x h); simpl; try done; lra.
  - split; [|intros ? ?; discriminate]. split; [intros _|done].
    by apply (grad_mask_None grads d (fun _ x => in_open (Some l) (Some h) x)).
Qed.


Lemma size_list_to_set_NoDup (xs : list K) :
  size (list_to_set xs : gset K) = length xs -> NoDup xs.
Proof.
  induction xs as [|x xs IH]; intros Hs; [constructor|].
  assert (Hle : (size (list_to_set xs : gset K) <= length xs)%nat).
  { clear. induction xs as [|y ys IH]; [rewrite list_to_set_nil, size_empty; simpl; lia|].
    rewrite list_to_set_cons, size_union_alt, size_singleton. simpl.
    pose proof (subseteq_size ((list_to_set ys : gset K) ∖ {[y]}) (list_to_set ys)
                  ltac:(set_solver)). lia. }
  rewrite list_to_set_cons in Hs. simpl in Hs.
  destruct (decide (x ∈ xs)) as [Hin|Hnin].
  - exfalso. assert (Heq : {[x]} ∪ (list_to_set xs : gset K) = list_to_set xs).
    { apply set_eq. intros y. rewrite elem_of_union, elem_of_singleton, elem_of_list_to_set.
      split; [intros [->|Hy]; done|intros Hy; by right]. }
    rewrite Heq in Hs. lia.
  - rewrite size_union in Hs.
    2:{ intros y Hy1 Hy2. apply elem_of_singleton in Hy1. subst.
        by apply elem_of_list_to_set in Hy2. }
    rewrite size_singleton in Hs. constructor; [done|]. apply IH. lia.
Qed.

Lemma fst_map_to_list_dom (m : gmap K R) (k : K) :
  k ∈ (map_to_list m).*1 <-> k ∈ dom m.
Proof.
  rewrite elem_of_dom, list_elem_of_fmap. split.
  - intros [[k' x] [-> Hin]]. apply elem_of_map_to_list in Hin. simpl. eauto.
  - intros [x Hx]. exists (k, x). split; [done|]. by apply elem_of_map_to_list.
Qed.

(** [transform_keys] raises [ValueError] exactly when [func] maps two
    distinct explicit keys of [d] to the same key. *)
Theorem transform_keys_raises_iff (d : NumDictK) (func : K -> K) (T : tape) :
  value_of (transform_keys d func) T = inl ValueError <->
  exists k1 k2, k1 ∈ dom (nd_map d) /\ k2 ∈ dom (nd_map d) /\ k1 <> k2 /\
                func k1 = func k2.
Proof.
  set (ks := (map_to_list (nd_map d)).*1).
  assert (Hsz : size (list_to_map ((fun kv : K * R => (func kv.1, kv.2)) <$>
                                   map_to_list (nd_map d)) : gmap K R) =
                size (list_to_set (func <$> ks) : gset K)).
  { rewrite <- size_dom, dom_list_to_map_L, transform_keys_fst. reflexivity. }
  assert (Hlen : nd_len d = length (func <$> ks)).
  { unfold nd_len, ks. rewrite !length_fmap, length_map_to_list. done. }
  assert (Hks : forall k, k ∈ ks <-> k ∈ dom (nd_map d)) by apply fst_map_to_list_dom.
  unfold value_of, transform_keys. case_decide as Hne.
  - split; [intros _|done]. rewrite Hsz, Hlen in Hne.
    assert (Hnd : ~ NoDup (func <$> ks)) by (intros Hnd; by apply Hne, eq_sym, size_list_to_set).
    apply NNPP. intros Hn. apply Hnd.
    apply NoDup_fmap_2_strong; [|apply NoDup_fst_map_to_list].
    intros k1 k2 H1 H2 Heq. destruct (decide (k1 = k2)) as [|Hne12]; [done|].
    exfalso. apply Hn. exists k1, k2. rewrite <- !Hks. auto.
  - split; [discriminate|]. intros (k1 & k2 & H1 & H2 & Hne12 & Heq). exfalso.
    rename Hne into Heq'. rewrite Hsz, Hlen in Heq'.
    apply eq_sym, size_list_to_set_NoDup in Heq'.
    apply Hks, list_elem_of_lookup in H1 as [i1 Hi1].
    apply Hks, list_elem_of_lookup in H2 as [i2 Hi2].
    assert (i1 = i2).
    { apply (NoDup_lookup (func <$> ks) i1 i2 (func k1) Heq');
        rewrite list_lookup_fmap; [by rewrite Hi1|by rewrite Hi2, Heq]. }
    subst. congruence.
Qed.

Lemma grad_tk_pairs (grads : NumDictK) (func : K -> K) (l kvs : list (K * R)) :
  Forall2 (fun kv y => (g ← nd_get grads (func kv.1); Some (func kv.1, g)) = Some y) l kvs ->
  kvs.*1 = func <$> l.*1 /\ forall j y, (j, y) ∈ kvs -> nd_get grads j = Some y.
Proof.
  induction 1 as [|[k0 x0] y0 l kvs Hy Hf [IH1 IH2]].
  - split; [done|]. intros j y Hin. by apply elem_of_nil in Hin.
  - simpl in Hy. destruct (nd_get grads (func k0)) as [g|] eqn:Hg; simpl in Hy;
      [|discriminate].
    injection Hy as <-. rewrite !fmap_cons, IH1. split; [done|].
    intros j y Hin. apply elem_of_cons in Hin as [[= -> ->]|Hin]; [done|]. eauto.
Qed.

(** [_grad_transform_keys] raises [KeyError] exactly when some renamed key
    [func(k)] has no gradient; otherwise its result has default
    [grads.default], its keys are the renamed keys, and each holds the
    gradient [grads[func(k)]]. *)
Theorem grad_transform_keys_image (grads d : NumDictK) (func : K -> K) (T : tape) :
  (value_of (_grad_transform_keys grads d func) T = inl KeyError <->
   exists k, k ∈ dom (nd_map d) /\ nd_get grads (func k) = None) /\
  (forall gs, value_of (_grad_transform_keys grads d func) T = inr gs ->
   exists gd, gs = [gd] /\ nd_default gd = nd_default grads /\
     dom (nd_map gd) = set_map func (dom (nd_map d)) /\
     forall j, j ∈ dom (nd_map gd) -> nd_map gd !! j = nd_get grads j).
Proof.
  unfold value_of, _grad_transform_keys.
  destruct (mapM _ _) as [kvs|] eqn:Hm.
  - split.
    + split; [discriminate|]. intros (k & Hk & Hg). exfalso.
      apply elem_of_dom in Hk as [x Hx].
      assert (mapM (fun kv : K * R => g ← nd_get grads (func kv.1); Some (func kv.1, g))
                (map_to_list (nd_map d)) = None) as Hn.
      { apply mapM_None_2, Exists_exists. exists (k, x).
        split; [by apply elem_of_map_to_list|]. simpl. by rewrite Hg. }
      congruence.
    + intros gs [= <-]. eexists. split; [done|]. cbn [nd_map nd_default].
      split; [done|].
      apply mapM_Some_1, grad_tk_pairs in Hm as [H1 H2]. split.
      * rewrite dom_list_to_map_L, H1. apply set_eq. intros j.
        rewrite elem_of_list_to_set, elem_of_map, list_elem_of_fmap.
        setoid_rewrite fst_map_to_list_dom. naive_solver.
      * intros j Hj. apply elem_of_dom in Hj as [y Hy]. rewrite Hy.
        symmetry. apply H2. by apply elem_of_list_to_map_2.
  - split; [|intros ? ?; discriminate]. split; [intros _|done].
    apply mapM_None_1, Exists_exists in Hm as ([k x] & Hin & Hg).
    simpl in Hg. apply elem_of_map_to_list in Hin.
    exists k. split; [apply elem_of_dom; eauto|].
    destruct (nd_get grads (func k)); [discriminate|done].
Qed.

(** [merge] of a single NumDict returns it unchanged, default included. *)
Theorem merge_single (d : NumDictK) (T : tape) : value_of (merge [d]) T = inr d.
Proof.
  rewrite merge_ok_value.
  - destruct d as [m df]. simpl. rewrite (right_id_L ∅ (∪)). done.
  - intros Hlt. apply size_lt_share_key in Hlt. by apply share_key_singleton in Hlt.
Qed.

(** [_grad_merge] raises [KeyError] exactly when some explicit key of an
    operand has no gradient; otherwise it returns one gradient per operand,
    each over that operand's keys, holding [grads[k]], with default
    [grads.default]. *)
Theorem grad_merge_split (grads : NumDictK) (ds : list NumDictK) (T : tape) :
  (value_of (_grad_merge grads ds) T = inl KeyError <->
   exists d k, d ∈ ds /\ k ∈ dom (nd_map d) /\ nd_get grads k = None) /\
  (forall gs, value_of (_grad_merge grads ds) T = inr gs ->
   length gs = length ds /\
   forall i d gd, ds !! i = Some d -> gs !! i = Some gd ->
     nd_default gd = nd_default grads /\ dom (nd_map gd) = dom (nd_map d) /\
     forall k, k ∈ dom (nd_map d) -> nd_map gd !! k = nd_get grads k).
Proof.
  unfold value_of, _grad_merge.
  destruct (mapM _ ds) as [gs|] eqn:Hm.
  - split.
    + split; [discriminate|]. intros (d & k & Hd & Hk & Hg). exfalso.
      assert (Hn : mapM (fun d => mapping ← dict_comp d (fun k _ => nd_get grads k);
                                  Some (mkND mapping (nd_default grads))) ds = None).
      { apply mapM_None_2, Exists_exists. exists d. split; [done|].
        apply elem_of_dom in Hk as [x Hx].
        assert (dict_comp d (fun k _ => nd_get grads k) = None) as ->; [|done].
        apply dict_comp_None. eauto. }
      congruence.
    + intros gs' [= <-]. apply mapM_Some_1 in Hm.
      split; [symmetry; by eapply Forall2_length|].
      intros i d gd Hd Hgd. pose proof (Forall2_lookup_lr _ _ _ i d gd Hm Hd Hgd) as Hc.
      simpl in Hc. destruct (dict_comp d _) as [m|] eqn:Hdc; simpl in Hc; [|discriminate].
      injection Hc as <-. cbn [nd_map nd_default]. split; [done|].
      split; [by eapply dict_comp_dom|].
      intros k Hk. apply elem_of_dom in Hk as [x Hx].
      rewrite (dict_comp_lookup _ _ _ k Hdc), Hx. done.
  - split; [|intros ? ?; discriminate]. split; [intros _|done].
    apply mapM_None_1, Exists_exists in Hm as (d & Hd & Hc).
    simpl in Hc. destruct (dict_comp d _) eqn:Hdc; [discriminate|].
    apply dict_comp_None in Hdc as (k & x & Hx & Hg).
    exists d, k. split; [done|]. split; [apply elem_of_dom; eauto|done].
Qed.


Lemma fold_py_min2_spec (l : list R) (a : R) :
  (fold_left py_min2 l a = a \/ fold_left py_min2 l a ∈ l) /\
  fold_left py_min2 l a <= a /\
  (forall y, y ∈ l -> fold_left py_min2 l a <= y).
Proof.
  revert a. induction l as [|x l IH]; intros a; simpl.
  - split; [by left|]. split; [lra|]. intros y Hy. by apply elem_of_nil in Hy.
  - destruct (IH (py_min2 a x)) as [Hin [Hle Hlb]].
    assert (Ha : py_min2 a x <= a /\ py_min2 a x <= x /\
                 (py_min2 a x = a \/ py_min2 a x = x)).
    { unfold py_min2, Rltb. destruct (Rlt_dec x a); lra. }
    split; [|split].
    + destruct Hin as [Heq|Hin]; [|right; by right].
      rewrite Heq. destruct Ha as [_ [_ [->| ->]]]; [by left|right; by left].
    + lra.
    + intros y Hy. apply elem_of_cons in Hy as [->|Hy]; [lra|by apply Hlb].
Qed.

Lemma py_min_spec (l : list R) (m : R) :
  py_min l = Some m -> m ∈ l /\ forall y, y ∈ l -> m <= y.
Proof.
  destruct l as [|x l]; simpl; [discriminate|]. intros [= <-].
  destruct (fold_py_min2_spec l x) as [Hin [Hle Hlb]]. split.
  - destruct Hin as [->|Hin]; [by left|by right].
  - intros y Hy. apply elem_of_cons in Hy as [->|Hy]; [lra|by apply Hlb].
Qed.

(** On a nonempty [d], [reduce_max] and [reduce_min] do not raise; with
    no key they return a default-only NumDict, with a key a one-key
    NumDict; the results are values of [d] bounding all its values. *)
Theorem reduce_max_min_extremes (d : NumDictK) (T : tape) :
  (0 < nd_len d)%nat ->
  exists mx mn,
    value_of (reduce_max d None) T = inr (mkND ∅ (Some mx)) /\
    value_of (reduce_min d None) T = inr (mkND ∅ (Some mn)) /\
    (forall k, value_of (reduce_max d (Some k)) T = inr (ND {[k := mx]}) /\
               value_of (reduce_min d (Some k)) T = inr (ND {[k := mn]})) /\
    (exists k, nd_map d !! k = Some mx) /\ (exists k, nd_map d !! k = Some mn) /\
    (forall k y, nd_map d !! k = Some y -> mn <= y <= mx).
Proof.
  intros Hlen. pose proof (values_nonempty d Hlen) as Hne.
  destruct (py_max (values d)) as [mx|] eqn:Hmx; [|by destruct (values d)].
  destruct (py_min (values d)) as [mn|] eqn:Hmn; [|by destruct (values d)].
  exists mx, mn. unfold value_of, reduce_max, reduce_min. rewrite Hmx, Hmn.
  apply py_max_spec in Hmx as [Hmxin Hmxub]. apply py_min_spec in Hmn as [Hmnin Hmnlb].
  split; [done|]. split; [done|]. split; [done|].
  split; [by apply elem_of_values|]. split; [by apply elem_of_values|].
  intros k y Hy. assert (y ∈ values d) by (apply elem_of_values; eauto).
  split; [by apply Hmnlb|by apply Hmxub].
Qed.

(** [set_by] raises [KeyError] exactly when some key [k] of [target] has
    no value [source[keyfunc(k)]]; otherwise it records one call, its
    result has default [None], the keys of [target], and holds
    [source[keyfunc(k)]] at [k]. *)
Theorem set_by_lookup (target source : NumDictK) (keyfunc : K -> K) (T : tape) :
  (value_of (set_by target source keyfunc) T = inl KeyError <->
   exists k, k ∈ dom (nd_map target) /\ nd_get source (keyfunc k) = None) /\
  (forall v, value_of (set_by target source keyfunc) T = inr v ->
   set_by target source keyfunc T = inr (v, T ++ [mkRec OpSetBy v [PND target; PND source]]) /\
   nd_default v = None /\ dom (nd_map v) = dom (nd_map target) /\
   forall k, k ∈ dom (nd_map target) -> nd_map v !! k = nd_get source (keyfunc k)).
Proof.
  unfold value_of, set_by.
  destruct (dict_comp target _) as [m|] eqn:Hm.
  - split.
    + split; [discriminate|]. intros (k & Hk & Hg). exfalso.
      apply elem_of_dom in Hk as [x Hx].
      assert (dict_comp target (fun k _ => nd_get source (keyfunc k)) = None)
        by (apply dict_comp_None; eauto). congruence.
    + intros v [= <-]. split; [done|]. cbn [nd_map nd_default]. split; [done|].
      split; [by eapply dict_comp_dom|].
      intros k Hk. apply elem_of_dom in Hk as [x Hx].
      rewrite (dict_comp_lookup _ _ _ k Hm), Hx. done.
  - split; [|intros ? ?; discriminate]. split; [intros _|done].
    apply dict_comp_None in Hm as (k & x & Hx & Hg).
    exists k. split; [apply elem_of_dom; eauto|done].
Qed.




Lemma mapM_M_run {A B} (f : A -> @M K _ _ B) (g : A -> B) (P : A -> Prop)
    (xs : list A) (T : @tape K _ _) :
  (forall x T, P x -> exists T', f x T = inr (g x, T')) ->
  (forall x, x ∈ xs -> P x) ->
  exists T', mapM_M f xs T = inr (g <$> xs, T').
Proof.
  intros Hf. revert T. induction xs as [|x xs IH]; intros T Hxs.
  - exists T. reflexivity.
  - destruct (Hf x T ltac:(apply Hxs; by left)) as [T1 H1].
    destruct (IH T1 ltac:(intros; apply Hxs; by right)) as [T2 H2].
    exists T2. cbn [mapM_M]. unfold bind at 1. rewrite H1.
    unfold bind. rewrite H2. reflexivity.
Qed.

Lemma by_group_nonempty (d : NumDictK) (keyfunc : K -> K) (j : K) :
  j ∈ set_map (D := gset K) keyfunc (dom (nd_map d)) ->
  filter (fun kv : K * R => keyfunc kv.1 = j) (nd_map d) <> ∅.
Proof.
  intros Hj. apply elem_of_map in Hj as (i & -> & Hi).
  apply elem_of_dom in Hi as [x Hx]. intros He.
  assert (Hf : filter (fun kv : K * R => keyfunc kv.1 = keyfunc i) (nd_map d) !! i = Some x)
    by (apply map_lookup_filter_Some; done).
  rewrite He, lookup_empty in Hf. discriminate.
Qed.

Lemma by_step (d : NumDictK) (reducer : NumDictK -> option K -> M NumDictK)
    (keyfunc : K -> K) (F : gmap K R -> R) (k : K) (T : tape) :
  (forall g j T, nd_map g <> ∅ ->
     exists T', reducer g (Some j) T = inr (ND {[j := F (nd_map g)]}, T')) ->
  k ∈ set_map (D := gset K) keyfunc (dom (nd_map d)) ->
  exists T',
    (let s := filter (fun x => keyfunc x = k) (map_to_list (nd_map d)).*1 in
     let* g := keep d None (Some (fun x => bool_decide (x ∈ s))) in
     reducer g (Some k)) T =
    inr (ND {[k := F (filter (fun kv : K * R => keyfunc kv.1 = k) (nd_map d))]}, T').
Proof.
  intros Hred Hk.
  assert (Hf : filter (fun kv : K * R =>
                 keep_sel None (Some (fun x => bool_decide
                   (x ∈ filter (fun x => keyfunc x = k) (map_to_list (nd_map d)).*1)))
                   kv.1 = true) (nd_map d)
               = filter (fun kv : K * R => keyfunc kv.1 = k) (nd_map d)).
  { apply map_filter_ext. intros i x Hi. simpl.
    unfold keep_sel. rewrite orb_false_l, bool_decide_eq_true, list_elem_of_filter, fst_map_to_list_dom.
    split; [tauto|]. intros Hk'. split; [done|]. apply elem_of_dom; eauto. }
  pose proof (by_group_nonempty d keyfunc k Hk) as Hne.
  edestruct (Hred (mkND (filter (fun kv : K * R => keyfunc kv.1 = k) (nd_map d))
                        (nd_default d)) k) as [T' HT']; [exact Hne|].
  exists T'. cbn zeta. unfold keep, bind, record_call, ret. rewrite Hf. exact HT'.
Qed.

Lemma merge_singletons (ks : list K) (F : K -> R) (T : tape) :
  NoDup ks -> ks <> [] ->
  exists v,
    value_of (merge ((fun k => ND {[k := F k]}) <$> ks)) T = inr v /\
    nd_default v = None /\
    forall j x, nd_map v !! j = Some x <-> j ∈ ks /\ x = F j.
Proof.
  intros Hnd Hne.
  set (outs := (fun k => ND {[k := F k]}) <$> ks).
  assert (Hns : ~ share_key outs).
  { intros (i & j & di & dj & k & Hij & Hi & Hj & Hki & Hkj).
    unfold outs in Hi, Hj. rewrite list_lookup_fmap in Hi, Hj.
    destruct (ks !! i) as [ki|] eqn:Hki'; [|discriminate].
    destruct (ks !! j) as [kj|] eqn:Hkj'; [|discriminate].
    injection Hi as <-. injection Hj as <-. simpl in Hki, Hkj.
    rewrite dom_singleton_L in Hki, Hkj.
    apply elem_of_singleton in Hki, Hkj. subst.
    apply Hij. by eapply NoDup_lookup. }
  destruct ks as [|k0 ks']; [done|].
  exists (mkND (foldl (fun acc d => nd_map d ∪ acc) ∅ outs)
            (if decide (length (remove_dups (nd_default <$> outs)) = 1%nat)
             then nd_default (ND {[k0 := F k0]}) else None)).
  split; [|split].
  - apply merge_ok_value. intros Hlt. by apply Hns, size_lt_share_key.
  - simpl. by case_decide.
  - intros j x. etransitivity.
    { apply (foldl_union_lookup outs ∅ j x Hns).
      intros d _. rewrite dom_empty_L. apply disjoint_empty_r. }
    rewrite lookup_empty. split.
    + intros [Hx|(d & Hd & Hx)]; [discriminate|].
      unfold outs in Hd. apply list_elem_of_fmap in Hd as (k & -> & Hk).
      simpl in Hx. apply lookup_singleton_Some in Hx as [-> <-]. done.
    + intros [Hj ->]. right. exists (ND {[j := F j]}). split.
      * unfold outs. by apply (list_elem_of_fmap_2 (fun k => ND {[k := F k]})).
      * simpl. apply lookup_singleton_Some. done.
Qed.

Lemma by_run (d : NumDictK) (reducer : NumDictK -> option K -> M NumDictK)
    (keyfunc : K -> K) (F : gmap K R -> R) (T : tape) :
  (forall g j T, nd_map g <> ∅ ->
     exists T', reducer g (Some j) T = inr (ND {[j := F (nd_map g)]}, T')) ->
  nd_map d <> ∅ ->
  exists v,
    value_of (by_ d reducer keyfunc) T = inr v /\
    nd_default v = None /\
    forall j x, nd_map v !! j = Some x <->
      j ∈ set_map (D := gset K) keyfunc (dom (nd_map d)) /\
      x = F (filter (fun kv : K * R => keyfunc kv.1 = j) (nd_map d)).
Proof.
  intros Hred Hne. unfold by_. cbv zeta.
  match goal with |- context [mapM_M ?f ?ks] =>
    destruct (mapM_M_run f
      (fun k => ND {[k := F (filter (fun kv : K * R => keyfunc kv.1 = k) (nd_map d))]})
      (fun k => k ∈ set_map (D := gset K) keyfunc (dom (nd_map d))) ks T)
      as [T' HT'] end.
  { intros k T0 Hk. by apply by_step. }
  { intros k Hk. by apply elem_of_elements in Hk. }
  destruct (merge_singletons (elements (set_map (D := gset K) keyfunc (dom (nd_map d))))
              (fun k => F (filter (fun kv : K * R => keyfunc kv.1 = k) (nd_map d))) T')
    as (v & Hv & Hdef & Hlk).
  { apply NoDup_elements. }
  { apply map_choose in Hne as (i & x & Hi). intros He.
    assert (Hin : keyfunc i ∈ set_map (D := gset K) keyfunc (dom (nd_map d))).
    { apply elem_of_map_2. apply elem_of_dom. eauto. }
    apply elem_of_elements in Hin. rewrite He in Hin. by apply elem_of_nil in Hin. }
  exists v. split; [|split; [done|]].
  - unfold value_of. unfold bind at 1. rewrite HT'. exact Hv.
  - intros j x. rewrite Hlk, elem_of_elements. done.
Qed.

Lemma by_empty (d : NumDictK) reducer (keyfunc : K -> K) (T : tape) :
  nd_map d = ∅ -> value_of (by_ d reducer keyfunc) T = inl ValueError.
Proof.
  intros Hd. unfold by_. rewrite Hd, dom_empty_L, set_map_empty, elements_empty.
  reflexivity.
Qed.


Lemma values_ND_nonempty (m : gmap K R) : m <> ∅ -> values (ND m) <> [].
Proof.
  intros Hm Hv. apply Hm. unfold values in Hv. simpl in Hv.
  apply fmap_nil_inv in Hv. by apply map_to_list_empty_iff.
Qed.

Lemma and_iff_under (A B C : Prop) : (A -> (B <-> C)) -> (A /\ B <-> A /\ C).
Proof. tauto. Qed.

Lemma elem_of_group_values (d : NumDictK) (keyfunc : K -> K) (j : K) (y : R) :
  y ∈ values (ND (filter (fun kv : K * R => keyfunc kv.1 = j) (nd_map d))) <->
  exists k, nd_map d !! k = Some y /\ keyfunc k = j.
Proof.
  rewrite elem_of_values. simpl. setoid_rewrite map_lookup_filter_Some. naive_solver.
Qed.

(** [sum_by(d, keyfunc)]: on an empty [d] the empty tuple of keys makes
    [merge()] raise [ValueError]; otherwise the result has one explicit
    key per group [keyfunc(k)], holding the sum of the group's values,
    and default [None]. *)
Theorem sum_by_groups (d : NumDictK) (keyfunc : K -> K) (T : tape) :
  (nd_map d = ∅ -> value_of (sum_by d keyfunc) T = inl ValueError) /\
  (nd_map d <> ∅ ->
   exists v,
     value_of (sum_by d keyfunc) T = inr v /\
     nd_default v = None /\
     forall j x, nd_map v !! j = Some x <->
       j ∈ set_map (D := gset K) keyfunc (dom (nd_map d)) /\
       x = py_sum (values (ND (filter (fun kv : K * R => keyfunc kv.1 = j) (nd_map d))))).
Proof.
  split.
  - intros Hd. by apply by_empty.
  - intros Hne. unfold sum_by.
    apply (by_run d reduce_sum keyfunc (fun m => py_sum (values (ND m))) T); [|done].
    intros g j T0 _. eexists. reflexivity.
Qed.

(** [max_by] and [min_by]: on an empty [d] they raise [ValueError];
    otherwise each group [keyfunc(k)] holds the largest (smallest) value
    of the group: a value of [d] at a key of the group, bounding every
    other value of the group. *)
Theorem max_min_by_groups (d : NumDictK) (keyfunc : K -> K) (T : tape) :
  (nd_map d = ∅ ->
   value_of (max_by d keyfunc) T = inl ValueError /\
   value_of (min_by d keyfunc) T = inl ValueError) /\
  (nd_map d <> ∅ ->
   exists vmax vmin,
     value_of (max_by d keyfunc) T = inr vmax /\
     value_of (min_by d keyfunc) T = inr vmin /\
     nd_default vmax = None /\ nd_default vmin = None /\
     forall j,
       (forall x, nd_map vmax !! j = Some x <->
          j ∈ set_map (D := gset K) keyfunc (dom (nd_map d)) /\
          (exists k, nd_map d !! k = Some x /\ keyfunc k = j) /\
          (forall k y, nd_map d !! k = Some y -> keyfunc k = j -> y <= x)) /\
       (forall x, nd_map vmin !! j = Some x <->
          j ∈ set_map (D := gset K) keyfunc (dom (nd_map d)) /\
          (exists k, nd_map d !! k = Some x /\ keyfunc k = j) /\
          (forall k y, nd_map d !! k = Some y -> keyfunc k = j -> x <= y))).
Proof.
  split.
  - intros Hd. split; by apply by_empty.
  - intros Hne.
    destruct (by_run d reduce_max keyfunc
                (fun m => match py_max (values (ND m)) with Some r => r | None => 0 end)
                T) as (vmax & Hmax & Hdmax & Hlmax); [|done|].
    { intros g j T0 Hg. pose proof (values_ND_nonempty (nd_map g) Hg) as Hv.
      change (values g <> []) in Hv.
      destruct (py_max (values g)) as [r|] eqn:Hr; [|by destruct (values g)].
      eexists. unfold reduce_max. rewrite Hr. cbn beta iota.
      change (values (ND (nd_map g))) with (values g). rewrite Hr. reflexivity. }
    destruct (by_run d reduce_min keyfunc
                (fun m => match py_min (values (ND m)) with Some r => r | None => 0 end)
                T) as (vmin & Hmin & Hdmin & Hlmin); [|done|].
    { intros g j T0 Hg. pose proof (values_ND_nonempty (nd_map g) Hg) as Hv.
      change (values g <> []) in Hv.
      destruct (py_min (values g)) as [r|] eqn:Hr; [|by destruct (values g)].
      eexists. unfold reduce_min. rewrite Hr. cbn beta iota.
      change (values (ND (nd_map g))) with (values g). rewrite Hr. reflexivity. }
    exists vmax, vmin. do 4 (split; [done|]). intros j. split; intros x.
    + rewrite Hlmax. apply and_iff_under; intros Hj.
      pose proof (values_ND_nonempty _ (by_group_nonempty d keyfunc j Hj)) as Hv.
      destruct (py_max (values (ND (filter (fun kv : K * R => keyfunc kv.1 = j) (nd_map d)))))
        as [r|] eqn:Hr; [|by destruct (values _)].
      pose proof (py_max_spec _ _ Hr) as [Hin Hub]. split.
      * intros ->. split; [by apply elem_of_group_values|].
        intros k y Hk Hkj. apply Hub, elem_of_group_values. eauto.
      * intros [Hx Hxub]. symmetry. apply (py_max_unique _ _ _ Hr).
        -- by apply elem_of_group_values.
        -- intros y Hy. apply elem_of_group_values in Hy as (k & Hk & Hkj). eauto.
    + rewrite Hlmin. apply and_iff_under; intros Hj.
      pose proof (values_ND_nonempty _ (by_group_nonempty d keyfunc j Hj)) as Hv.
      destruct (py_min (values (ND (filter (fun kv : K * R => keyfunc kv.1 = j) (nd_map d)))))
        as [r|] eqn:Hr; [|by destruct (values _)].
      pose proof (py_min_spec _ _ Hr) as [Hin Hlb]. split.
      * intros ->. split; [by apply elem_of_group_values|].
        intros k y Hk Hkj. apply Hlb, elem_of_group_values. eauto.
      * intros [Hx Hxlb]. apply elem_of_group_values in Hin as (k & Hk & Hkj).
        pose proof (Hxlb k r Hk Hkj).
        pose proof (Hlb x ltac:(by apply elem_of_group_values)). lra.
Qed.


Lemma values_nil_iff (d : NumDictK) : values d = [] <-> nd_map d = ∅.
Proof.
  unfold values. split.
  - intros Hv. apply fmap_nil_inv in Hv. by apply map_to_list_empty_iff.
  - intros ->. by rewrite map_to_list_empty.
Qed.

Lemma nd_get_const (r : R) (k : K) : nd_get (mkND (∅ : gmap K R) (Some r)) k = Some r.
Proof. unfold nd_get. simpl. by rewrite lookup_empty. Qed.

Lemma dom_const (r : R) : dom (nd_map (mkND (∅ : gmap K R) (Some r))) = ∅.
Proof. apply dom_empty_L. Qed.

Lemma binop_zero_run (grads : NumDictK) (T : tape) :
  exists g1,
    nd_binop OpMul Rmult grads (mkND ∅ (Some 0)) T =
      inr (g1, T ++ [mkRec OpMul g1 [PND grads; PND (mkND ∅ (Some 0))]]) /\
    dom (nd_map g1) = dom (nd_map grads) /\
    (forall k x, nd_map g1 !! k = Some x -> x = 0) /\
    nd_default g1 = (fun _ => 0) <$> nd_default grads.
Proof.
  unfold nd_binop. change (dom (nd_map (mkND ∅ (Some 0)))) with (dom (∅ : gmap K R)).
  rewrite dom_empty_L, union_empty_r_L.
  destruct (mapM _ _) as [kvs|] eqn:Hkvs.
  2:{ exfalso. apply mapM_None_1, Exists_exists in Hkvs as [k [Hk Hn]].
      apply elem_of_elements, elem_of_dom in Hk as [x Hx].
      unfold nd_get in Hn. rewrite Hx in Hn. discriminate. }
  pose proof (mapM_Some_1 _ _ _ Hkvs) as HF.
  assert (Hz : forall k, nd_get (mkND (∅ : gmap K R) (Some 0)) k = Some 0)
    by (intros k; unfold nd_get; simpl; by rewrite lookup_empty).
  assert (Hfst : kvs.*1 = elements (dom (nd_map grads))).
  { clear - HF. induction HF as [|k kv l' kvs' Hk _ IH]; [done|].
    csimpl. rewrite IH. cbv beta in Hk.
    destruct (nd_get grads k); simpl in Hk; [|discriminate].
    injection Hk as <-. done. }
  eexists. split; [reflexivity|]. split; [|split].
  - simpl. rewrite dom_list_to_map_L, Hfst. apply list_to_set_elements_L.
  - intros k x Hk. simpl in Hk. apply elem_of_list_to_map_2 in Hk.
    apply list_elem_of_lookup in Hk as [j Hj].
    destruct (Forall2_lookup_r _ _ _ _ _ HF Hj) as [k' [_ Hf]].
    cbv beta in Hf. rewrite Hz in Hf.
    destruct (nd_get grads k'); simpl in Hf; [|discriminate].
    injection Hf as _ <-. ring.
  - simpl. destruct (nd_default grads); simpl; [f_equal; ring|reflexivity].
Qed.

Lemma grad_reduce_core (red : NumDictK -> option K -> M NumDictK)
    (sel : list R -> option R) (d : NumDictK) (g : option R) (T : tape) :
  (forall T, sel (values d) = None -> red d None T = inl ValueError) ->
  (forall r T, sel (values d) = Some r ->
     exists T', red d None T = inr (mkND ∅ (Some r), T')) ->
  (sel (values d) = None ->
   value_of (let* m := red d None in
             let* c := isclose d m in
             let* r := nd_scalar OpMul (fun v g0 => g0 * v) c g in
             ret [r]) T = inl ValueError) /\
  (forall r, sel (values d) = Some r -> g = None ->
   value_of (let* m := red d None in
             let* c := isclose d m in
             let* r := nd_scalar OpMul (fun v g0 => g0 * v) c g in
             ret [r]) T = inl TypeError) /\
  (forall r gv, sel (values d) = Some r -> g = Some gv ->
   exists rr,
     value_of (let* m := red d None in
               let* c := isclose d m in
               let* r := nd_scalar OpMul (fun v g0 => g0 * v) c g in
               ret [r]) T = inr [rr] /\
     dom (nd_map rr) = dom (nd_map d) /\
     (forall k x, nd_map d !! k = Some x ->
        nd_map rr !! k = Some (gv * b2R (py_isclose x r))) /\
     nd_default rr = (fun y => gv * b2R (py_isclose y r)) <$> nd_default d).
Proof.
  intros Hnone Hsome. split; [|split].
  - intros Hs. unfold value_of, bind at 1. by rewrite Hnone.
  - intros r Hr Hg.
    destruct (Hsome r T Hr) as [T1 H1].
    destruct (isclose_run d (mkND ∅ (Some r)) T1) as (mp & Hc & _ & _).
    { intros k Hk. split; [|by rewrite nd_get_const]. rewrite dom_const, union_empty_r_L in Hk.
      apply elem_of_dom in Hk as [x Hx]. unfold nd_get. rewrite Hx. eauto. }
    unfold value_of, bind at 1. rewrite H1. unfold bind at 1. rewrite Hc.
    rewrite Hg. reflexivity.
  - intros r gv Hr Hg.
    destruct (Hsome r T Hr) as [T1 H1].
    destruct (isclose_run d (mkND ∅ (Some r)) T1) as (mp & Hc & Hmp & Hmn).
    { intros k Hk. split; [|by rewrite nd_get_const]. rewrite dom_const, union_empty_r_L in Hk.
      apply elem_of_dom in Hk as [x Hx]. unfold nd_get. rewrite Hx. eauto. }
    eexists. split; [|split; [|split]].
    + unfold value_of, bind at 1. rewrite H1. unfold bind at 1. rewrite Hc.
      rewrite Hg. reflexivity.
    + simpl. rewrite dom_fmap_L. apply set_eq. intros k. rewrite !elem_of_dom.
      split.
      * intros [y Hy]. destruct (nd_map d !! k) eqn:Hk; [done|].
        rewrite Hmn in Hy; [discriminate|]. simpl.
        rewrite dom_empty_L, union_empty_r_L, not_elem_of_dom. done.
      * intros [x Hx]. rewrite (Hmp k x r); [done| | |].
        -- rewrite dom_const, union_empty_r_L. apply elem_of_dom. eauto.
        -- unfold nd_get. by rewrite Hx.
        -- apply nd_get_const.
    + intros k x Hx. simpl. rewrite lookup_fmap, (Hmp k x r); [done| | |].
      * rewrite dom_const, union_empty_r_L. apply elem_of_dom. eauto.
      * unfold nd_get. by rewrite Hx.
      * apply nd_get_const.
    + simpl. destruct (nd_default d); reflexivity.
Qed.


(** [_grad_set_by] raises [ValueError] on an empty [grads] (through
    [sum_by]); otherwise its first gradient is zero on the keys of [grads]
    with default [0] when [grads] has one, and its second is [sum_by] of
    [grads]: per group [keyfunc(k)], the sum of the group's gradients. *)
Theorem grad_set_by_parts (grads target source : NumDictK) (keyfunc : K -> K)
    (T : tape) :
  (nd_map grads = ∅ ->
   value_of (_grad_set_by grads target source keyfunc) T = inl ValueError) /\
  (nd_map grads <> ∅ ->
   exists g1 g2,
     value_of (_grad_set_by grads target source keyfunc) T = inr [g1; g2] /\
     dom (nd_map g1) = dom (nd_map grads) /\
     (forall k x, nd_map g1 !! k = Some x -> x = 0) /\
     nd_default g1 = (fun _ => 0) <$> nd_default grads /\
     nd_default g2 = None /\
     forall j x, nd_map g2 !! j = Some x <->
       j ∈ set_map (D := gset K) keyfunc (dom (nd_map grads)) /\
       x = py_sum (values (ND (filter (fun kv : K * R => keyfunc kv.1 = j)
                                      (nd_map grads))))).
Proof.
  destruct (binop_zero_run grads T) as (g1 & Hb & Hd1 & Hz & Hdef1).
  set (T1 := T ++ [mkRec OpMul g1 [PND grads; PND (mkND ∅ (Some 0))]]).
  fold T1 in Hb.
  split.
  - intros Hd. pose proof (by_empty grads reduce_sum keyfunc T1 Hd) as He.
    unfold value_of, _grad_set_by, bind at 1. rewrite Hb.
    unfold sum_by, bind. unfold value_of in He.
    destruct (by_ grads reduce_sum keyfunc T1) as [e|[v T']]; [|discriminate].
    by injection He as ->.
  - intros Hne.
    destruct (by_run grads reduce_sum keyfunc (fun m => py_sum (values (ND m))) T1)
      as (v & Hv & Hdef & Hlk); [|done|].
    { intros g j T0 _. eexists. reflexivity. }
    exists g1, v. split; [|done].
    unfold value_of, _grad_set_by, bind at 1. rewrite Hb.
    unfold sum_by, bind. unfold value_of in Hv.
    destruct (by_ grads reduce_sum keyfunc T1) as [e|[v' T']]; [discriminate|].
    by injection Hv as ->.
Qed.

Lemma grad_reduce_max_prefix (grads d : NumDictK) (key : option K) (T : tape) :
  key = None \/ match key with None => nd_default grads | Some k => nd_get grads k end <> None ->
  value_of (_grad_reduce_max grads d key) T =
  value_of (let* m := reduce_max d None in
            let* c := isclose d m in
            let* r := nd_scalar OpMul (fun v g0 => g0 * v) c
                        (match key with None => nd_default grads | Some k => nd_get grads k end) in
            ret [r]) T.
Proof.
  intros Hk. destruct key as [k|]; [|reflexivity]. unfold _grad_reduce_max.
  destruct (nd_get grads k) eqn:Hg; [reflexivity|].
  destruct Hk as [Hk|Hk]; [discriminate|done].
Qed.

Lemma grad_reduce_min_prefix (grads d : NumDictK) (key : option K) (T : tape) :
  key = None \/ match key with None => nd_default grads | Some k => nd_get grads k end <> None ->
  value_of (_grad_reduce_min grads d key) T =
  value_of (let* m := reduce_min d None in
            let* c := isclose d m in
            let* r := nd_scalar OpMul (fun v g0 => g0 * v) c
                        (match key with None => nd_default grads | Some k => nd_get grads k end) in
            ret [r]) T.
Proof.
  intros Hk. destruct key as [k|]; [|reflexivity]. unfold _grad_reduce_min.
  destruct (nd_get grads k) eqn:Hg; [reflexivity|].
  destruct Hk as [Hk|Hk]; [discriminate|done].
Qed.

(** The backward rules of [reduce_max] and [reduce_min]: with [g] the
    incoming gradient ([grads.default] or [grads[key]]), they raise
    [ValueError] on an empty [d], [TypeError] when [key] is [None] and
    [grads] has no default; otherwise they keep the keys of [d] and hold
    [g] where the value is close to the maximum (minimum) and [0]
    elsewhere. *)
Theorem grad_reduce_max_min_select (grads d : NumDictK) (key : option K) (T : tape) :
  let g := match key with None => nd_default grads | Some k => nd_get grads k end in
  (nd_map d = ∅ -> (key = None \/ g <> None) ->
   value_of (_grad_reduce_max grads d key) T = inl ValueError /\
   value_of (_grad_reduce_min grads d key) T = inl ValueError) /\
  (nd_map d <> ∅ -> key = None -> nd_default grads = None ->
   value_of (_grad_reduce_max grads d key) T = inl TypeError /\
   value_of (_grad_reduce_min grads d key) T = inl TypeError) /\
  (forall gv, nd_map d <> ∅ -> g = Some gv ->
   exists mx mn rmax rmin,
     value_of (_grad_reduce_max grads d key) T = inr [rmax] /\
     value_of (_grad_reduce_min grads d key) T = inr [rmin] /\
     mx ∈ values d /\ (forall y, y ∈ values d -> y <= mx) /\
     mn ∈ values d /\ (forall y, y ∈ values d -> mn <= y) /\
     dom (nd_map rmax) = dom (nd_map d) /\ dom (nd_map rmin) = dom (nd_map d) /\
     (forall k x, nd_map d !! k = Some x ->
        nd_map rmax !! k = Some (gv * b2R (py_isclose x mx)) /\
        nd_map rmin !! k = Some (gv * b2R (py_isclose x mn))) /\
     nd_default rmax = (fun y => gv * b2R (py_isclose y mx)) <$> nd_default d /\
     nd_default rmin = (fun y => gv * b2R (py_isclose y mn)) <$> nd_default d).
Proof.
  intros g.
  assert (Hmax_none : forall T, py_max (values d) = None ->
                        reduce_max d None T = inl ValueError).
  { intros T0 Hn. unfold reduce_max. by rewrite Hn. }
  assert (Hmax_some : forall r T, py_max (values d) = Some r ->
                        exists T', reduce_max d None T = inr (mkND ∅ (Some r), T')).
  { intros r T0 Hr. unfold reduce_max. rewrite Hr. eexists. reflexivity. }
  assert (Hmin_none : forall T, py_min (values d) = None ->
                        reduce_min d None T = inl ValueError).
  { intros T0 Hn. unfold reduce_min. by rewrite Hn. }
  assert (Hmin_some : forall r T, py_min (values d) = Some r ->
                        exists T', reduce_min d None T = inr (mkND ∅ (Some r), T')).
  { intros r T0 Hr. unfold reduce_min. rewrite Hr. eexists. reflexivity. }
  destruct (grad_reduce_core reduce_max py_max d g T Hmax_none Hmax_some)
    as (Hx1 & Hx2 & Hx3).
  destruct (grad_reduce_core reduce_min py_min d g T Hmin_none Hmin_some)
    as (Hn1 & Hn2 & Hn3).
  split; [|split].
  - intros Hd Hkg.
    rewrite grad_reduce_max_prefix, grad_reduce_min_prefix by exact Hkg. fold g.
    apply values_nil_iff in Hd. rewrite Hd in Hx1, Hn1.
    split; [by apply Hx1|by apply Hn1].
  - intros Hd Hk Hdef.
    rewrite grad_reduce_max_prefix, grad_reduce_min_prefix by (by left). fold g.
    assert (Hv : values d <> []) by (by rewrite values_nil_iff).
    assert (Hg : g = None) by (unfold g; by rewrite Hk).
    destruct (py_max (values d)) as [mx|] eqn:Hmx; [|by destruct (values d)].
    destruct (py_min (values d)) as [mn|] eqn:Hmn; [|by destruct (values d)].
    split; [by apply (Hx2 mx)|by apply (Hn2 mn)].
  - intros gv Hd Hg.
    assert (Hkg : key = None \/ g <> None) by (right; by rewrite Hg).
    rewrite grad_reduce_max_prefix, grad_reduce_min_prefix by exact Hkg. fold g.
    assert (Hv : values d <> []) by (by rewrite values_nil_iff).
    destruct (py_max (values d)) as [mx|] eqn:Hmx; [|by destruct (values d)].
    destruct (py_min (values d)) as [mn|] eqn:Hmn; [|by destruct (values d)].
    destruct (Hx3 mx gv eq_refl Hg) as (rmax & Hrmax & Hdmax & Hlmax & Hfmax).
    destruct (Hn3 mn gv eq_refl Hg) as (rmin & Hrmin & Hdmin & Hlmin & Hfmin).
    apply py_max_spec in Hmx as [Hmxin Hmxub].
    apply py_min_spec in Hmn as [Hmnin Hmnlb].
    exists mx, mn, rmax, rmin. do 8 (split; [done|]).
    split; [|done]. intros k x Hk. split; [by apply Hlmax|by apply Hlmin].
Qed.

End Extras.

(** * Instances of the properties with preconditions *)

Lemma clip_nonzero_bounds_witness :
  1 <> 0 /\ 3 <> 0 /\
  exists v, value_of (clip d_abc (Some 1) (Some 3)) [] = inr v /\
    nd_default v = nd_default d_abc /\
    (forall k, nd_map v !! k = (fun x => Rmax 1 (Rmin 3 x)) <$> nd_map d_abc !! k) /\
    (1 <= 3 -> forall k y, nd_map v !! k = Some y -> 1 <= y <= 3).
Proof.
  assert (Hl : (1 : R) <> 0) by lra. assert (Hh : (3 : R) <> 0) by lra.
  split; [exact Hl|]. split; [exact Hh|].
  exact (clip_nonzero_bounds d_abc 1 3 [] Hl Hh).
Defined.

Lemma grad_clip_masks_witness :
  1 <> 0 /\ 3 <> 0 /\
  (value_of (_grad_clip grad_abc d_abc (py_or_inf (Some 1)) (py_or_inf (Some 3))) [] = inl KeyError <->
   exists k, k ∈ dom (nd_map d_abc) /\ nd_get grad_abc k = None) /\
  (forall gs, value_of (_grad_clip grad_abc d_abc (py_or_inf (Some 1)) (py_or_inf (Some 3))) [] = inr gs ->
   exists v gd, value_of (clip d_abc (Some 1) (Some 3)) [] = inr v /\ gs = [gd] /\
     dom (nd_map gd) = dom (nd_map d_abc) /\ nd_default gd = nd_default grad_abc /\
     forall k x g, nd_map d_abc !! k = Some x -> nd_get grad_abc k = Some g ->
       (1 < x < 3 -> nd_map gd !! k = Some g /\ nd_map v !! k = Some x) /\
       (x <= 1 \/ 3 <= x -> nd_map gd !! k = Some 0)).
Proof.
  assert (Hl : (1 : R) <> 0) by lra. assert (Hh : (3 : R) <> 0) by lra.
  split; [exact Hl|]. split; [exact Hh|].
  exact (grad_clip_masks grad_abc d_abc 1 3 [] Hl Hh).
Defined.

Lemma reduce_max_min_extremes_witness :
  (0 < nd_len d_abc)%nat /\
  exists mx mn,
    value_of (reduce_max d_abc None) [] = inr (mkND ∅ (Some mx)) /\
    value_of (reduce_min d_abc None) [] = inr (mkND ∅ (Some mn)) /\
    (forall k, value_of (reduce_max d_abc (Some k)) [] = inr (ND {[k := mx]}) /\
               value_of (reduce_min d_abc (Some k)) [] = inr (ND {[k := mn]})) /\
    (exists k, nd_map d_abc !! k = Some mx) /\ (exists k, nd_map d_abc !! k = Some mn) /\
    (forall k y, nd_map d_abc !! k = Some y -> mn <= y <= mx).
Proof.
  assert (Hlen : (0 < nd_len d_abc)%nat) by (vm_compute; lia).
  split; [exact Hlen|].
  exact (reduce_max_min_extremes d_abc [] Hlen).
Defined.

